(** * ESP32 four-lane traffic light controller (esp32sketch.ino)

    A shallow embedding of the sketch: the four [LaneLeds] globals, the
    serial line buffer with its index, the GPIO output latches and the
    serial port, followed by the properties of the command protocol. *)

From Stdlib Require Import ZArith Ascii String List Lia Bool.
From stdpp Require Import base option list gmap strings.

Local Open Scope char_scope.
Local Open Scope nat_scope.

(** ** Characters and C strings *)

Definition NUL : ascii := "000".
Definition LF : ascii := "010".
Definition CR : ascii := "013".

(** A string literal of the sketch, as the bytes it denotes. *)
Definition lit (s : string) : list ascii := list_ascii_of_string s.

Arguments lit : simpl never.

(** [*(mem + p)].  The sketch only reads inside [serialBuffer]; a read
    past the end of the modelled memory yields the terminator. *)
Definition peek (mem : list ascii) (p : nat) : ascii := default NUL (mem !! p).

(** The characters of a C string laid out in [l]: everything before the
    first NUL. *)
Fixpoint cstr_of (l : list ascii) : list ascii :=
  match l with
  | [] => []
  | c :: l' => if (c =? NUL)%char then [] else c :: cstr_of l'
  end.

(** The C string that starts at offset [p] of [mem]. *)
Definition cstr (mem : list ascii) (p : nat) : list ascii := cstr_of (drop p mem).

Definition strlen (mem : list ascii) (p : nat) : nat := length (cstr mem p).

(** Length of the longest prefix of [l] whose characters satisfy [P]. *)
Fixpoint span (P : ascii -> bool) (l : list ascii) : nat :=
  match l with
  | [] => 0
  | c :: l' => if P c then S (span P l') else 0
  end.

(** [strspn(mem + p, delim)] and [strcspn(mem + p, delim)] for a
    one-character delimiter string. *)
Definition strspn (mem : list ascii) (p : nat) (delim : ascii) : nat :=
  span (fun c => (c =? delim)%char) (drop p mem).

Definition strcspn (mem : list ascii) (p : nat) (delim : ascii) : nat :=
  span (fun c => negb (c =? delim)%char && negb (c =? NUL)%char) (drop p mem).

(** ** Hardware: GPIO latches and the serial port *)

Definition HIGH : bool := true.
Definition LOW : bool := false.

Inductive PinMode := INPUT | OUTPUT.

Record Hardware := mkHardware {
  pinLevel : gmap Z bool;        (* level last written to each pin *)
  pinModes : gmap Z PinMode;     (* mode given to each pin by pinMode *)
  baud : option Z;               (* rate given to Serial.begin *)
  serialRx : list ascii;         (* bytes received and not yet read *)
  serialTx : list ascii;         (* every byte written to the port *)
  pinTrace : list (Z * bool)     (* digitalWrite calls, oldest first *)
}.

Definition pinMode (pin : Z) (mode : PinMode) (h : Hardware) : Hardware :=
  mkHardware (pinLevel h) (<[pin:=mode]> (pinModes h)) (baud h)
             (serialRx h) (serialTx h) (pinTrace h).

Definition digitalWrite (pin : Z) (v : bool) (h : Hardware) : Hardware :=
  mkHardware (<[pin:=v]> (pinLevel h)) (pinModes h) (baud h)
             (serialRx h) (serialTx h) (pinTrace h ++ [(pin, v)]).

Definition Serial_begin (rate : Z) (h : Hardware) : Hardware :=
  mkHardware (pinLevel h) (pinModes h) (Some rate)
             (serialRx h) (serialTx h) (pinTrace h).

Definition Serial_print (s : list ascii) (h : Hardware) : Hardware :=
  mkHardware (pinLevel h) (pinModes h) (baud h)
             (serialRx h) (serialTx h ++ s) (pinTrace h).

Definition Serial_println (s : list ascii) (h : Hardware) : Hardware :=
  Serial_print (s ++ [CR; LF]) h.

Definition set_serialRx (rx : list ascii) (h : Hardware) : Hardware :=
  mkHardware (pinLevel h) (pinModes h) (baud h)
             rx (serialTx h) (pinTrace h).

(** ** The lanes *)

Definition NR_PIN : Z := 23.
Definition NY_PIN : Z := 22.
Definition NG_PIN : Z := 21.

Definition ER_PIN : Z := 17.
Definition EY_PIN : Z := 18.
Definition EG_PIN : Z := 19.

Definition SR_PIN : Z := 13.
Definition SY_PIN : Z := 12.
Definition SG_PIN : Z := 14.

Definition WR_PIN : Z := 25.
Definition WY_PIN : Z := 26.
Definition WG_PIN : Z := 27.

Record LaneLeds := mkLaneLeds {
  redPin : Z;
  yellowPin : Z;
  greenPin : Z;
  currentLed : ascii             (* 'R', 'Y', 'G', or 'O' (Off) *)
}.

Definition set_currentLed (c : ascii) (lane : LaneLeds) : LaneLeds :=
  mkLaneLeds (redPin lane) (yellowPin lane) (greenPin lane) c.

Definition SERIAL_BUFFER_SIZE : nat := 64.
Definition BAUD_RATE : Z := 115200.

(** [setLaneState(LaneLeds &lane, char state)]: the lane is passed by
    reference, so the updated record is returned with the hardware. *)
Definition setLaneState (lane : LaneLeds) (state : ascii) (h : Hardware)
  : LaneLeds * Hardware :=
  let h := digitalWrite (redPin lane) LOW h in
  let h := digitalWrite (yellowPin lane) LOW h in
  let h := digitalWrite (greenPin lane) LOW h in
  let lane := set_currentLed "O" lane in
  if (state =? "R")%char then
    (set_currentLed "R" lane, digitalWrite (redPin lane) HIGH h)
  else if (state =? "Y")%char then
    (set_currentLed "Y" lane, digitalWrite (yellowPin lane) HIGH h)
  else if (state =? "G")%char then
    (set_currentLed "G" lane, digitalWrite (greenPin lane) HIGH h)
  else
    let h := Serial_print (lit "Unknown light state '") h in
    let h := Serial_print [state] h in
    let h := Serial_println (lit "' for a lane. Turning all off.") h in
    (lane, h).

(** ** The sketch's globals *)

Record Sketch := mkSketch {
  northLane : LaneLeds;
  eastLane : LaneLeds;
  southLane : LaneLeds;
  westLane : LaneLeds;
  serialBuffer : list ascii;
  serialBufferIndex : nat;       (* an int that stays within 0..63 *)
  strtok_save : nat;             (* strtok's saved pointer, as an offset
                                    into serialBuffer *)
  hw : Hardware
}.

Definition set_hw (h : Hardware) (st : Sketch) : Sketch :=
  mkSketch (northLane st) (eastLane st) (southLane st) (westLane st)
           (serialBuffer st) (serialBufferIndex st) (strtok_save st) h.

Definition set_northLane (l : LaneLeds) (st : Sketch) : Sketch :=
  mkSketch l (eastLane st) (southLane st) (westLane st)
           (serialBuffer st) (serialBufferIndex st) (strtok_save st) (hw st).

Definition set_eastLane (l : LaneLeds) (st : Sketch) : Sketch :=
  mkSketch (northLane st) l (southLane st) (westLane st)
           (serialBuffer st) (serialBufferIndex st) (strtok_save st) (hw st).

Definition set_southLane (l : LaneLeds) (st : Sketch) : Sketch :=
  mkSketch (northLane st) (eastLane st) l (westLane st)
           (serialBuffer st) (serialBufferIndex st) (strtok_save st) (hw st).

Definition set_westLane (l : LaneLeds) (st : Sketch) : Sketch :=
  mkSketch (northLane st) (eastLane st) (southLane st) l
           (serialBuffer st) (serialBufferIndex st) (strtok_save st) (hw st).

Definition set_serialBuffer (b : list ascii) (st : Sketch) : Sketch :=
  mkSketch (northLane st) (eastLane st) (southLane st) (westLane st)
           b (serialBufferIndex st) (strtok_save st) (hw st).

Definition set_serialBufferIndex (i : nat) (st : Sketch) : Sketch :=
  mkSketch (northLane st) (eastLane st) (southLane st) (westLane st)
           (serialBuffer st) i (strtok_save st) (hw st).

Definition set_strtok_save (p : nat) (st : Sketch) : Sketch :=
  mkSketch (northLane st) (eastLane st) (southLane st) (westLane st)
           (serialBuffer st) (serialBufferIndex st) p (hw st).

(** The globals as the initialisers leave them, on hardware [h]. *)
Definition power_on (h : Hardware) : Sketch :=
  mkSketch (mkLaneLeds NR_PIN NY_PIN NG_PIN "R")
           (mkLaneLeds ER_PIN EY_PIN EG_PIN "R")
           (mkLaneLeds SR_PIN SY_PIN SG_PIN "R")
           (mkLaneLeds WR_PIN WY_PIN WG_PIN "R")
           (replicate SERIAL_BUFFER_SIZE NUL) 0 0 h.

(** ** strtok

    The C library's [strtok] on [serialBuffer], the only array the sketch
    tokenises.  [s = None] is a NULL first argument, which resumes at the
    saved pointer; the result is the offset of the token, or [None] for
    NULL.  Leading delimiters are skipped; at the terminator there is no
    token; otherwise the token runs up to the next delimiter, which is
    overwritten with NUL, or up to the terminator. *)
Definition strtok (s : option nat) (delim : ascii) (st : Sketch)
  : option nat * Sketch :=
  let mem := serialBuffer st in
  let s := match s with Some p => p | None => strtok_save st end in
  let s := s + strspn mem s delim in
  if (peek mem s =? NUL)%char then (None, set_strtok_save s st)
  else
    let token := s in
    let e := token + strcspn mem token delim in
    if (peek mem e =? NUL)%char then (Some token, set_strtok_save e st)
    else (Some token, set_strtok_save (S e) (set_serialBuffer (<[e:=NUL]> mem) st)).

(** ** processCommand *)

(** The body of the [while (part != NULL)] loop up to the next [strtok]. *)
Definition processPart (part : nat) (st : Sketch) : Sketch :=
  let mem := serialBuffer st in
  if (strlen mem part =? 3) && (peek mem (part + 1) =? ":")%char then
    let laneCode := peek mem part in
    let lightState := peek mem (part + 2) in
    if (laneCode =? "N")%char then
      let '(l, h) := setLaneState (northLane st) lightState (hw st) in
      set_hw h (set_northLane l st)
    else if (laneCode =? "E")%char then
      let '(l, h) := setLaneState (eastLane st) lightState (hw st) in
      set_hw h (set_eastLane l st)
    else if (laneCode =? "S")%char then
      let '(l, h) := setLaneState (southLane st) lightState (hw st) in
      set_hw h (set_southLane l st)
    else if (laneCode =? "W")%char then
      let '(l, h) := setLaneState (westLane st) lightState (hw st) in
      set_hw h (set_westLane l st)
    else
      let h := Serial_print (lit "Unknown lane code: ") (hw st) in
      let h := Serial_println [laneCode] h in
      set_hw h st
  else
    let h := Serial_print (lit "Malformed command part: ") (hw st) in
    let h := Serial_println (cstr mem part) h in
    set_hw h st.

(** The [while] loop; [None] when [fuel] iterations did not reach
    [part == NULL]. *)
Fixpoint whileParts (fuel : nat) (part : option nat) (st : Sketch)
  : option Sketch :=
  match part with
  | None => Some st
  | Some p =>
      match fuel with
      | 0 => None
      | S fuel' =>
          let st := processPart p st in
          let '(part', st) := strtok None "," st in
          whileParts fuel' part' st
      end
  end.

(** [processCommand(command)], [command] an offset into [serialBuffer].
    Every iteration consumes at least one byte of the buffer, which bounds
    the number of iterations. *)
Definition processCommand (command : nat) (st : Sketch) : option Sketch :=
  let h := Serial_print (lit "Received command: ") (hw st) in
  let h := Serial_println (cstr (serialBuffer st) command) h in
  let st := set_hw h st in
  let '(part, st) := strtok (Some command) "," st in
  whileParts (length (serialBuffer st)) part st.

(** ** setup and loop *)

Definition setup (st : Sketch) : Sketch :=
  let h := Serial_begin BAUD_RATE (hw st) in
  let h := Serial_println (lit "ESP32 Traffic Light Controller Initialized.") h in
  let h := Serial_println (lit "Waiting for commands (e.g., N:G,E:R,S:R,W:R\n)...") h in
  let h := pinMode NR_PIN OUTPUT h in
  let h := pinMode NY_PIN OUTPUT h in
  let h := pinMode NG_PIN OUTPUT h in
  let h := pinMode ER_PIN OUTPUT h in
  let h := pinMode EY_PIN OUTPUT h in
  let h := pinMode EG_PIN OUTPUT h in
  let h := pinMode SR_PIN OUTPUT h in
  let h := pinMode SY_PIN OUTPUT h in
  let h := pinMode SG_PIN OUTPUT h in
  let h := pinMode WR_PIN OUTPUT h in
  let h := pinMode WY_PIN OUTPUT h in
  let h := pinMode WG_PIN OUTPUT h in
  let st := set_hw h st in
  let '(l, h) := setLaneState (northLane st) "R" (hw st) in
  let st := set_hw h (set_northLane l st) in
  let '(l, h) := setLaneState (eastLane st) "R" (hw st) in
  let st := set_hw h (set_eastLane l st) in
  let '(l, h) := setLaneState (southLane st) "R" (hw st) in
  let st := set_hw h (set_southLane l st) in
  let '(l, h) := setLaneState (westLane st) "R" (hw st) in
  set_hw h (set_westLane l st).

(** One call of [loop()]. *)
Definition loop (st : Sketch) : option Sketch :=
  match serialRx (hw st) with
  | [] => Some st
  | incomingChar :: rx =>
      let st := set_hw (set_serialRx rx (hw st)) st in
      if (incomingChar =? LF)%char then
        let st := set_serialBuffer
                    (<[serialBufferIndex st := NUL]> (serialBuffer st)) st in
        match processCommand 0 st with
        | Some st => Some (set_serialBufferIndex 0 st)
        | None => None
        end
      else if serialBufferIndex st <? SERIAL_BUFFER_SIZE - 1 then
        Some (set_serialBufferIndex (S (serialBufferIndex st))
                (set_serialBuffer
                   (<[serialBufferIndex st := incomingChar]> (serialBuffer st)) st))
      else
        let h := Serial_println
                   (lit "Error: Serial buffer overflow. Command ignored.") (hw st) in
        Some (set_serialBufferIndex 0 (set_hw h st))
  end.

(** [n] successive calls of [loop()]. *)
Fixpoint loops (n : nat) (st : Sketch) : option Sketch :=
  match n with
  | 0 => Some st
  | S n' => match loop st with
            | Some st' => loops n' st'
            | None => None
            end
  end.

(** The bytes [bs] arrive on the serial line. *)
Definition receive (bs : list ascii) (st : Sketch) : Sketch :=
  set_hw (set_serialRx (serialRx (hw st) ++ bs) (hw st)) st.

(** Hardware out of reset with pin latches [levels]: nothing configured,
    nothing sent or received. *)
Definition reset_hw (levels : gmap Z bool) : Hardware :=
  mkHardware levels ∅ None [] [] [].

(** ** Observations *)

(** The four [LaneLeds] globals by name. *)
Inductive Lane := North | East | South | West.

Global Instance Lane_eq_dec : EqDecision Lane.
Proof. solve_decision. Defined.

Definition laneOf (id : Lane) (st : Sketch) : LaneLeds :=
  match id with
  | North => northLane st
  | East => eastLane st
  | South => southLane st
  | West => westLane st
  end.

(** Assignment to the global of lane [id]. *)
Definition setLane (id : Lane) (l : LaneLeds) (st : Sketch) : Sketch :=
  match id with
  | North => set_northLane l st
  | East => set_eastLane l st
  | South => set_southLane l st
  | West => set_westLane l st
  end.

(** The code of a lane on the wire. *)
Definition laneCodeOf (id : Lane) : ascii :=
  match id with
  | North => "N"
  | East => "E"
  | South => "S"
  | West => "W"
  end.

(** The lane a lane code selects in [processCommand]'s switch; [None] is
    the default case. *)
Definition laneOfCode (c : ascii) : option Lane :=
  if (c =? "N")%char then Some North
  else if (c =? "E")%char then Some East
  else if (c =? "S")%char then Some South
  else if (c =? "W")%char then Some West
  else None.

(** The pins each lane is declared with. *)
Definition pinsOf (id : Lane) : Z * Z * Z :=
  match id with
  | North => (NR_PIN, NY_PIN, NG_PIN)
  | East => (ER_PIN, EY_PIN, EG_PIN)
  | South => (SR_PIN, SY_PIN, SG_PIN)
  | West => (WR_PIN, WY_PIN, WG_PIN)
  end.

(** The three pins of a lane record: red, yellow, green. *)
Definition lanePins (lane : LaneLeds) : Z * Z * Z :=
  (redPin lane, yellowPin lane, greenPin lane).

Definition pinsDistinct (lane : LaneLeds) : Prop :=
  redPin lane ≠ yellowPin lane ∧ redPin lane ≠ greenPin lane
  ∧ yellowPin lane ≠ greenPin lane.

(** The level last driven on a pin; [None] for a pin never written. *)
Definition level (h : Hardware) (pin : Z) : option bool := pinLevel h !! pin.

(** An output line is active when it is driven HIGH. *)
Definition active (h : Hardware) (pin : Z) : bool :=
  match level h pin with
  | Some true => true
  | _ => false
  end.

(** The three output lines of a lane: red, yellow, green. *)
Definition lamps (lane : LaneLeds) (h : Hardware)
  : option bool * option bool * option bool :=
  (level h (redPin lane), level h (yellowPin lane), level h (greenPin lane)).

(** How many of the three output lines of a lane are active. *)
Definition activeCount (lane : LaneLeds) (h : Hardware) : nat :=
  (if active h (redPin lane) then 1 else 0)
  + (if active h (yellowPin lane) then 1 else 0)
  + (if active h (greenPin lane) then 1 else 0).

(** The state a lane records after [setLaneState] with character [c]. *)
Definition recorded (c : ascii) : ascii :=
  if (c =? "R")%char then "R"
  else if (c =? "Y")%char then "Y"
  else if (c =? "G")%char then "G"
  else "O".

(** The state characters with a lamp of their own. *)
Definition isRYG (c : ascii) : bool :=
  (c =? "R")%char || (c =? "Y")%char || (c =? "G")%char.

(** The lamp levels that show state [c]. *)
Definition lampsFor (c : ascii) : option bool * option bool * option bool :=
  (Some (c =? "R")%char, Some (c =? "Y")%char, Some (c =? "G")%char).

(** The three outputs driven LOW. *)
Definition allOff : option bool * option bool * option bool :=
  (Some LOW, Some LOW, Some LOW).

(** What is seen of a lane: the state it records and its three lamps. *)
Definition laneView (id : Lane) (st : Sketch)
  : ascii * (option bool * option bool * option bool) :=
  (currentLed (laneOf id st), lamps (laneOf id st) (hw st)).

(** Everything of the sketch's state but the contents of the line buffer
    and [strtok]'s saved pointer: the four lanes, the buffer index and
    the hardware. *)
Definition control (st : Sketch)
  : LaneLeds * LaneLeds * LaneLeds * LaneLeds * nat * Hardware :=
  (northLane st, eastLane st, southLane st, westLane st,
   serialBufferIndex st, hw st).

(** *** The pin writes of a call *)

(** The [digitalWrite] calls of one [setLaneState]. *)
Definition laneWrites (lane : LaneLeds) (c : ascii) : list (Z * bool) :=
  [(redPin lane, LOW); (yellowPin lane, LOW); (greenPin lane, LOW)]
  ++ (if (c =? "R")%char then [(redPin lane, HIGH)]
      else if (c =? "Y")%char then [(yellowPin lane, HIGH)]
      else if (c =? "G")%char then [(greenPin lane, HIGH)]
      else []).

(** The pin latches after the writes [ws], applied oldest first. *)
Definition replay (m : gmap Z bool) (ws : list (Z * bool)) : gmap Z bool :=
  foldl (fun m w => <[w.1 := w.2]> m) m ws.

(** The lamp states a lane passes through while the writes [ws] are
    applied one by one to the latches [m], the last one included. *)
Fixpoint transients (lane : LaneLeds) (m : gmap Z bool) (ws : list (Z * bool))
  : list (option bool * option bool * option bool) :=
  match ws with
  | [] => []
  | w :: ws' =>
      let m' := <[w.1 := w.2]> m in
      (m' !! redPin lane, m' !! yellowPin lane, m' !! greenPin lane)
        :: transients lane m' ws'
  end.

(** [setLaneState lane c] called twice in a row: the lamp states of the
    lane after each [digitalWrite] of the second call. *)
Definition repeatTransients (lane : LaneLeds) (c : ascii) (h : Hardware)
  : list (option bool * option bool * option bool) :=
  let lh1 := setLaneState lane c h in
  let lh2 := setLaneState lh1.1 c lh1.2 in
  transients lh1.1 (pinLevel lh1.2)
    (drop (length (pinTrace lh1.2)) (pinTrace lh2.2)).

(** *** Status channel *)

(** The lines of the text [s]: its pieces between line feeds, and a last
    unterminated piece when there is one. *)
Fixpoint linesFrom (cur : list ascii) (s : list ascii) : list (list ascii) :=
  match s with
  | [] => match cur with [] => [] | _ => [cur] end
  | c :: s' =>
      if (c =? LF)%char then cur :: linesFrom [] s'
      else linesFrom (cur ++ [c]) s'
  end.

Definition lines (s : list ascii) : list (list ascii) := linesFrom [] s.

(** [p] is a prefix of [s]. *)
Fixpoint startsWith (p s : list ascii) : bool :=
  match p, s with
  | [], _ => true
  | a :: p', b :: s' => (a =? b)%char && startsWith p' s'
  | _ :: _, [] => false
  end.

(** A line of the status channel is a diagnostic when it opens with one
    of the sketch's four error messages; the echo of a received line
    opens with [Received command: ]. *)
Definition isDiagnostic (l : list ascii) : bool :=
  startsWith (lit "Error: Serial buffer overflow. Command ignored.") l
  || startsWith (lit "Malformed command part: ") l
  || startsWith (lit "Unknown lane code: ") l
  || startsWith (lit "Unknown light state '") l.

(** The number of diagnostics in the text [s]. *)
Definition diagnostics (s : list ascii) : nat :=
  length (List.filter isDiagnostic (lines s)).

(** No line feed among the characters of [s]. *)
Definition noLF (s : list ascii) : bool :=
  forallb (fun c => negb (c =? LF)%char) s.

(** The texts the sketch writes: the three diagnostics of
    [processCommand] and [setLaneState], the one of [loop], and the echo
    of a line. *)
Definition unknownStateText (c : ascii) : list ascii :=
  lit "Unknown light state '" ++ [c]
  ++ lit "' for a lane. Turning all off." ++ [CR; LF].

Definition unknownLaneText (c : ascii) : list ascii :=
  lit "Unknown lane code: " ++ [c; CR; LF].

Definition malformedText (seg : list ascii) : list ascii :=
  lit "Malformed command part: " ++ seg ++ [CR; LF].

Definition overflowText : list ascii :=
  lit "Error: Serial buffer overflow. Command ignored." ++ [CR; LF].

Definition echoText (line : list ascii) : list ascii :=
  lit "Received command: " ++ cstr_of line ++ [CR; LF].

(** *** Well-formed and reachable states *)

(** The lanes have the pins they are declared with, the buffer has its
    declared size and the index is inside it. *)
Record wf (st : Sketch) : Prop := mkWf {
  wf_pins : forall id, lanePins (laneOf id st) = pinsOf id;
  wf_buffer : length (serialBuffer st) = SERIAL_BUFFER_SIZE;
  wf_index : serialBufferIndex st < SERIAL_BUFFER_SIZE
}.

(** The states the running sketch can be in between two calls of
    [loop()]: [setup] has run on some hardware out of reset, and since
    then bytes have arrived and [loop] has been called, in any order. *)
Inductive reachable : Sketch -> Prop :=
| reach_setup levels : reachable (setup (power_on (reset_hw levels)))
| reach_receive st bs : reachable st -> reachable (receive bs st)
| reach_loop st st' : reachable st -> loop st = Some st' -> reachable st'.

(** The state the examples start from: [setup] has run on hardware out
    of reset with no pin driven yet. *)
Definition booted : Sketch := setup (power_on (reset_hw ∅)).

(** ** The protocol as a function of the text of a line *)

(** A character that continues a token: neither the delimiter nor the
    terminator. *)
Definition tokenChar (c : ascii) : bool :=
  negb (c =? ",")%char && negb (c =? NUL)%char.

(** The pieces of [l] between occurrences of [d]. *)
Fixpoint splitOn (d : ascii) (l : list ascii) : list (list ascii) :=
  match l with
  | [] => [[]]
  | c :: l' =>
      if (c =? d)%char then [] :: splitOn d l'
      else match splitOn d l' with
           | s :: ss => (c :: s) :: ss
           | [] => [[c]]
           end
  end.

(** [strtok] never returns an empty token. *)
Definition nonEmpty (s : list ascii) : bool :=
  match s with [] => false | _ => true end.

(** The segments of a line: its non-empty pieces between commas, up to
    the first NUL. *)
Definition segments (line : list ascii) : list (list ascii) :=
  List.filter nonEmpty (splitOn "," (cstr_of line)).

(** What [processCommand] does with one segment, as a function of the
    segment's text. *)
Definition applySegment (seg : list ascii) (st : Sketch) : Sketch :=
  let malformed :=
    set_hw (Serial_println seg
              (Serial_print (lit "Malformed command part: ") (hw st))) st in
  match seg with
  | [laneCode; sep; lightState] =>
      if (sep =? ":")%char then
        if (laneCode =? "N")%char then
          let '(l, h) := setLaneState (northLane st) lightState (hw st) in
          set_hw h (set_northLane l st)
        else if (laneCode =? "E")%char then
          let '(l, h) := setLaneState (eastLane st) lightState (hw st) in
          set_hw h (set_eastLane l st)
        else if (laneCode =? "S")%char then
          let '(l, h) := setLaneState (southLane st) lightState (hw st) in
          set_hw h (set_southLane l st)
        else if (laneCode =? "W")%char then
          let '(l, h) := setLaneState (westLane st) lightState (hw st) in
          set_hw h (set_westLane l st)
        else
          set_hw (Serial_println [laneCode]
                    (Serial_print (lit "Unknown lane code: ") (hw st))) st
      else malformed
  | _ => malformed
  end.

(** The echo of a received line. *)
Definition echo (line : list ascii) (st : Sketch) : Sketch :=
  set_hw (Serial_println (cstr_of line)
            (Serial_print (lit "Received command: ") (hw st))) st.

(** The segments [segs] one after the other, first to last. *)
Definition runSegments (segs : list (list ascii)) (st : Sketch) : Sketch :=
  foldl (fun s seg => applySegment seg s) st segs.

(** A whole line: the echo, then the segments in order. *)
Definition applyLine (line : list ascii) (st : Sketch) : Sketch :=
  runSegments (segments line) (echo line st).

(** One directive handed to the lane model. *)
Definition applyDirective (id : Lane) (c : ascii) (st : Sketch) : Sketch :=
  let '(l, h) := setLaneState (laneOf id st) c (hw st) in
  set_hw h (setLane id l st).

(** The directive a segment carries, when it has the form
    lane code, colon, state code with a known lane code. *)
Definition decode (seg : list ascii) : option (Lane * ascii) :=
  match seg with
  | [laneCode; sep; lightState] =>
      if (sep =? ":")%char then
        match laneOfCode laneCode with
        | Some id => Some (id, lightState)
        | None => None
        end
      else None
  | _ => None
  end.

(** The state character of the last directive for lane [id] among the
    segments, if any. *)
Definition lastFor (id : Lane) (segs : list (list ascii)) : option ascii :=
  foldl (fun acc seg =>
           match decode seg with
           | Some (id', c) => if decide (id' = id) then Some c else acc
           | None => acc
           end) None segs.

(** What one segment makes the sketch write to the status channel. *)
Definition segmentReport (seg : list ascii) : list ascii :=
  match seg with
  | [laneCode; sep; lightState] =>
      if (sep =? ":")%char then
        match laneOfCode laneCode with
        | Some _ => if isRYG lightState then [] else unknownStateText lightState
        | None => unknownLaneText laneCode
        end
      else malformedText seg
  | _ => malformedText seg
  end.

(** A segment that makes the sketch emit a diagnostic. *)
Definition reports (seg : list ascii) : bool :=
  match decode seg with
  | Some (_, c) => negb (isRYG c)
  | None => true
  end.

(** The test [processCommand] makes on a part before it reads the lane
    code, and the two ways a segment is skipped. *)
Definition wellFormed (seg : list ascii) : bool :=
  (length seg =? 3) && (peek seg 1 =? ":")%char.

Definition malformed (seg : list ascii) : bool := negb (wellFormed seg).

Definition unknownLane (seg : list ascii) : bool :=
  wellFormed seg
  && match laneOfCode (peek seg 0) with Some _ => false | None => true end.

(** The only effect of a skipped segment: its report on the status
    channel. *)
Definition reportOnly (seg : list ascii) (st : Sketch) : Sketch :=
  set_hw (Serial_print (segmentReport seg) (hw st)) st.

(** The text of the segment that carries directive [d]. *)
Definition segmentOf (d : Lane * ascii) : list ascii :=
  [laneCodeOf d.1; ":"; d.2].

(** The text of a valid line: directives joined by commas. *)
Fixpoint render (ds : list (Lane * ascii)) : list ascii :=
  match ds with
  | [] => []
  | [(id, c)] => [laneCodeOf id; ":"; c]
  | (id, c) :: ds' => [laneCodeOf id; ":"; c; ","] ++ render ds'
  end.

(** The directives [ds] one after the other, first to last. *)
Definition runDirectives (ds : list (Lane * ascii)) (st : Sketch) : Sketch :=
  foldl (fun s d => applyDirective d.1 d.2 s) st ds.

(** *** Lines on the wire *)

(** The sketch is at the start of a line: the buffer is empty, and the
    bytes of [line], which fit in the buffer, then a line feed, then
    [more], are waiting on the serial port. *)
Definition lineReady (st : Sketch) (line more : list ascii) : Prop :=
  wf st /\ serialBufferIndex st = 0
  /\ serialRx (hw st) = line ++ LF :: more
  /\ noLF line = true /\ length line < SERIAL_BUFFER_SIZE.

(** The state as [loop] has it when the line is handed to the parser:
    the bytes of the line and its terminator have been read. *)
Definition taken (more : list ascii) (st : Sketch) : Sketch :=
  set_hw (set_serialRx more (hw st)) st.

(** The overflow branch of [loop] as seen on the status channel. *)
Definition reportOverflow (st : Sketch) : Sketch :=
  set_hw (Serial_print overflowText (hw st)) st.

(** A line of 67 bytes, longer than the buffer: 64 bytes of filler, then
    the text of a command. *)
Definition overlong : list ascii := replicate 64 "x" ++ lit "N:G".

(** *** Byte streams *)

(** The bytes stored in the buffer since the last line feed or overflow. *)
Definition accumulated (st : Sketch) : list ascii :=
  take (serialBufferIndex st) (serialBuffer st).

(** One byte received, on the accumulated bytes and the rest of the
    state: a line feed hands the accumulated line over, a byte that fits
    is added to it, and a byte that does not fit empties it. *)
Definition feedByte (p : list ascii * Sketch) (c : ascii)
  : list ascii * Sketch :=
  let '(acc, st) := p in
  if (c =? LF)%char then
    ([], set_serialBufferIndex 0 (applyLine acc st))
  else if length acc <? SERIAL_BUFFER_SIZE - 1 then
    (acc ++ [c], set_serialBufferIndex (S (length acc)) st)
  else
    ([], set_serialBufferIndex 0 (reportOverflow st)).

Definition feed (bs : list ascii) (p : list ascii * Sketch)
  : list ascii * Sketch :=
  foldl feedByte p bs.

(** The twelve pins of the four lanes. *)
Definition allPins : list Z :=
  [NR_PIN; NY_PIN; NG_PIN; ER_PIN; EY_PIN; EG_PIN;
   SR_PIN; SY_PIN; SG_PIN; WR_PIN; WY_PIN; WG_PIN].

(** The lines [ls] as they are sent: each followed by a line feed. *)
Definition wire (ls : list (list ascii)) : list ascii :=
  concat (map (fun l => l ++ [LF]) ls).

(** The lines [ls] applied one after the other, first to last. *)
Definition runLines (ls : list (list ascii)) (st : Sketch) : Sketch :=
  foldl (fun s l => applyLine l s) st ls.

(** [after] is [before] with some of its commas overwritten by NUL. *)
Definition tokenised (before after : list ascii) : Prop :=
  length after = length before
  /\ forall i,
       after !! i = before !! i
       \/ (before !! i = Some ","%char /\ after !! i = Some NUL).

(** * Properties *)

(** ** setLaneState *)

Ltac case_state c :=
  unfold setLaneState, recorded, isRYG, lampsFor;
  destruct (Ascii.eqb_spec c "R") as [->|?];
  [| destruct (Ascii.eqb_spec c "Y") as [->|?];
     [| destruct (Ascii.eqb_spec c "G") as [->|?]]];
  cbn [fst snd set_currentLed digitalWrite Serial_print Serial_println
       pinLevel pinModes baud serialRx serialTx pinTrace
       redPin yellowPin greenPin currentLed Ascii.eqb Bool.eqb orb].

Section SetLaneState.
Variables (lane : LaneLeds) (c : ascii) (h : Hardware).

Lemma setLaneState_pins : lanePins (setLaneState lane c h).1 = lanePins lane.
Proof. case_state c; reflexivity. Qed.

Lemma setLaneState_currentLed :
  currentLed (setLaneState lane c h).1 = recorded c.
Proof. case_state c; reflexivity. Qed.

Lemma setLaneState_serialRx :
  serialRx (setLaneState lane c h).2 = serialRx h.
Proof. case_state c; reflexivity. Qed.

Lemma setLaneState_pinModes :
  pinModes (setLaneState lane c h).2 = pinModes h.
Proof. case_state c; reflexivity. Qed.

Lemma setLaneState_baud : baud (setLaneState lane c h).2 = baud h.
Proof. case_state c; reflexivity. Qed.

Lemma setLaneState_serialTx :
  serialTx (setLaneState lane c h).2
  = serialTx h ++
      (if isRYG c then []
       else lit "Unknown light state '" ++ [c]
            ++ lit "' for a lane. Turning all off." ++ [CR; LF]).
Proof.
  case_state c; rewrite ?app_nil_r; try reflexivity.
  rewrite <- !app_assoc. reflexivity.
Qed.

Lemma setLaneState_pinTrace :
  pinTrace (setLaneState lane c h).2
  = pinTrace h
    ++ [(redPin lane, LOW); (yellowPin lane, LOW); (greenPin lane, LOW)]
    ++ (if (c =? "R")%char then [(redPin lane, HIGH)]
        else if (c =? "Y")%char then [(yellowPin lane, HIGH)]
        else if (c =? "G")%char then [(greenPin lane, HIGH)]
        else []).
Proof.
  case_state c; rewrite <- ?app_assoc; reflexivity.
Qed.

Lemma setLaneState_level_other pin :
  pin ≠ redPin lane -> pin ≠ yellowPin lane -> pin ≠ greenPin lane ->
  level (setLaneState lane c h).2 pin = level h pin.
Proof.
  intros Hr Hy Hg. unfold level.
  case_state c; rewrite ?lookup_insert_ne by done; reflexivity.
Qed.

Hypothesis distinct : pinsDistinct lane.

Lemma setLaneState_lamps :
  lamps (setLaneState lane c h).1 (setLaneState lane c h).2 = lampsFor c.
Proof.
  destruct distinct as (Hry & Hrg & Hyg). unfold lamps, level.
  case_state c; repeat f_equal;
    repeat first [ rewrite lookup_insert_eq
                 | rewrite lookup_insert_ne by done ];
    reflexivity.
Qed.
End SetLaneState.

(** ** C strings and tokens *)

Lemma peek_drop mem p k : peek mem (p + k) = peek (drop p mem) k.
Proof. unfold peek. by rewrite lookup_drop. Qed.

Lemma peek_drop0 mem p : peek mem p = peek (drop p mem) 0.
Proof. rewrite <- peek_drop. f_equal. lia. Qed.

Lemma span_le P l : span P l <= length l.
Proof. induction l as [|c l IH]; simpl; [lia|]. destruct (P c); simpl; lia. Qed.

Lemma span_take P l : Forall (fun c => P c = true) (take (span P l) l).
Proof.
  induction l as [|c l IH]; simpl; [constructor|].
  destruct (P c) eqn:E; simpl; [by constructor | constructor].
Qed.

Lemma span_drop P l :
  match drop (span P l) l with
  | [] => True
  | c :: _ => P c = false
  end.
Proof.
  induction l as [|c l IH]; simpl; [done|].
  destruct (P c) eqn:E; simpl; done.
Qed.

Lemma cstr_of_app a b :
  Forall (fun c => (c =? NUL)%char = false) a ->
  cstr_of (a ++ b) = a ++ cstr_of b.
Proof.
  induction 1 as [|c a Hc _ IH]; simpl; [done|]. by rewrite Hc, IH.
Qed.

Lemma cstr_of_no_NUL l : Forall (fun c => (c =? NUL)%char = false) (cstr_of l).
Proof.
  induction l as [|c l IH]; simpl; [constructor|].
  destruct (c =? NUL)%char eqn:E; by constructor.
Qed.

Lemma cstr_of_id l :
  Forall (fun c => (c =? NUL)%char = false) l -> cstr_of l = l.
Proof.
  intros H. rewrite <- (app_nil_r l) at 1. rewrite cstr_of_app by done.
  simpl. apply app_nil_r.
Qed.

Lemma splitOn_not_nil d l : splitOn d l <> [].
Proof.
  destruct l as [|c l]; simpl; [done|].
  destruct (c =? d)%char; [done|]. by destruct (splitOn d l).
Qed.

Lemma splitOn_app d a b :
  Forall (fun c => (c =? d)%char = false) a ->
  splitOn d (a ++ d :: b) = a :: splitOn d b.
Proof.
  induction 1 as [|c a Hc _ IH]; simpl.
  - by rewrite Ascii.eqb_refl.
  - by rewrite Hc, IH.
Qed.

Lemma splitOn_whole d a :
  Forall (fun c => (c =? d)%char = false) a -> splitOn d a = [a].
Proof.
  induction 1 as [|c a Hc _ IH]; simpl; [done|]. by rewrite Hc, IH.
Qed.

Lemma segments_nil : segments [] = [].
Proof. reflexivity. Qed.

Lemma segments_NUL l : segments (NUL :: l) = [].
Proof. reflexivity. Qed.

Lemma segments_commas a l :
  Forall (fun c => (c =? ",")%char = true) a -> segments (a ++ l) = segments l.
Proof.
  induction 1 as [|c a Hc _ IH]; simpl; [done|].
  apply Ascii.eqb_eq in Hc as ->. unfold segments in *. simpl. exact IH.
Qed.

Lemma tokenChar_no_comma a :
  Forall (fun c => tokenChar c = true) a ->
  Forall (fun c => (c =? ",")%char = false) a.
Proof.
  intros H. eapply Forall_impl; [exact H|]. intros c. unfold tokenChar.
  destruct (c =? ",")%char; simpl; done.
Qed.

Lemma tokenChar_no_NUL a :
  Forall (fun c => tokenChar c = true) a ->
  Forall (fun c => (c =? NUL)%char = false) a.
Proof.
  intros H. eapply Forall_impl; [exact H|]. intros c. unfold tokenChar.
  destruct (c =? ",")%char, (c =? NUL)%char; simpl; done.
Qed.

(** A token that runs up to the end of the string is the last segment. *)
Lemma segments_last tok l :
  tok <> [] -> Forall (fun c => tokenChar c = true) tok ->
  match l with [] => True | c :: _ => c = NUL end ->
  segments (tok ++ l) = [tok].
Proof.
  intros Hne Htok Hl. unfold segments.
  rewrite cstr_of_app by by apply tokenChar_no_NUL.
  assert (cstr_of l = []) as ->.
  { destruct l as [|c l]; [done|]. subst c. reflexivity. }
  rewrite app_nil_r, splitOn_whole by by apply tokenChar_no_comma.
  simpl. by destruct tok.
Qed.

(** A token that ends at a comma is followed by the segments of the rest. *)
Lemma segments_more tok l :
  tok <> [] -> Forall (fun c => tokenChar c = true) tok ->
  segments (tok ++ "," :: l) = tok :: segments l.
Proof.
  intros Hne Htok. unfold segments.
  rewrite cstr_of_app by by apply tokenChar_no_NUL.
  simpl cstr_of. rewrite splitOn_app by by apply tokenChar_no_comma.
  simpl. by destruct tok.
Qed.

Lemma segments_nonEmpty line seg : In seg (segments line) -> seg <> [].
Proof.
  unfold segments. rewrite filter_In. intros [_ H]. by destruct seg.
Qed.

(** ** processCommand against the segments of the line *)

(** The loop body reads the token only through its text. *)
Lemma processPart_applySegment part st :
  processPart part st = applySegment (cstr (serialBuffer st) part) st.
Proof.
  unfold processPart, applySegment, strlen, cstr.
  rewrite (peek_drop0 _ part), !peek_drop.
  destruct (drop part (serialBuffer st)) as [|a [|b [|c [|d r]]]];
    unfold peek; simpl;
    repeat match goal with
           | |- context [(?x =? NUL)%char] => destruct (x =? NUL)%char; simpl
           end;
    reflexivity.
Qed.

Lemma applySegment_set_serialBuffer b seg st :
  applySegment seg (set_serialBuffer b st)
  = set_serialBuffer b (applySegment seg st).
Proof.
  unfold applySegment. simpl.
  repeat match goal with
         | |- context [match ?x with _ => _ end] => destruct x
         end; reflexivity.
Qed.

Lemma applySegment_set_strtok_save k seg st :
  applySegment seg (set_strtok_save k st)
  = set_strtok_save k (applySegment seg st).
Proof.
  unfold applySegment. simpl.
  repeat match goal with
         | |- context [match ?x with _ => _ end] => destruct x
         end; reflexivity.
Qed.

Lemma runSegments_set_serialBuffer b segs st :
  runSegments segs (set_serialBuffer b st)
  = set_serialBuffer b (runSegments segs st).
Proof.
  revert st. induction segs as [|seg segs IH]; intros st; simpl; [done|].
  by rewrite applySegment_set_serialBuffer, IH.
Qed.

Lemma runSegments_set_strtok_save k segs st :
  runSegments segs (set_strtok_save k st)
  = set_strtok_save k (runSegments segs st).
Proof.
  revert st. induction segs as [|seg segs IH]; intros st; simpl; [done|].
  by rewrite applySegment_set_strtok_save, IH.
Qed.

Lemma applySegment_serialBuffer seg st :
  serialBuffer (applySegment seg st) = serialBuffer st.
Proof.
  unfold applySegment.
  repeat match goal with
         | |- context [match ?x with _ => _ end] => destruct x
         end; reflexivity.
Qed.

Lemma applySegment_strtok_save seg st :
  strtok_save (applySegment seg st) = strtok_save st.
Proof.
  unfold applySegment.
  repeat match goal with
         | |- context [match ?x with _ => _ end] => destruct x
         end; reflexivity.
Qed.

Lemma applySegment_serialBufferIndex seg st :
  serialBufferIndex (applySegment seg st) = serialBufferIndex st.
Proof.
  unfold applySegment.
  repeat match goal with
         | |- context [match ?x with _ => _ end] => destruct x
         end; reflexivity.
Qed.

Lemma set_strtok_save_twice b k k' st :
  serialBuffer st = b ->
  set_strtok_save k (set_strtok_save k' st)
  = set_serialBuffer b (set_strtok_save k st).
Proof. intros <-. by destruct st. Qed.

Lemma whileParts_None fuel st : whileParts fuel None st = Some st.
Proof. by destruct fuel. Qed.

(** [strtok] at the end of the string: nothing left, NULL. *)
Lemma strtok_at_end s st :
  let p := match s with Some q => q | None => strtok_save st end in
  match drop p (serialBuffer st) with [] => True | c :: _ => c = NUL end ->
  strtok s "," st = (None, set_strtok_save (p + 0) st).
Proof.
  intros p Hp. unfold strtok. fold p. unfold strspn.
  destruct (drop p (serialBuffer st)) as [|c r] eqn:E; simpl.
  - rewrite peek_drop, E. reflexivity.
  - subst c. simpl. rewrite peek_drop, E. reflexivity.
Qed.

(** The [while] loop of [processCommand] runs the segments that remain
    in the buffer from the position [strtok] starts at, in order, and
    ends within [fuel] iterations when [fuel] covers the bytes left. *)
Lemma whileParts_segments n : forall st s fuel,
  let p := match s with Some q => q | None => strtok_save st end in
  length (drop p (serialBuffer st)) <= n ->
  length (drop p (serialBuffer st)) <= fuel ->
  exists b k,
    length b = length (serialBuffer st)
    /\ (let '(part, st1) := strtok s "," st in whileParts fuel part st1)
       = Some (set_serialBuffer b (set_strtok_save k
                 (runSegments (segments (drop p (serialBuffer st))) st))).
Proof.
  induction n as [|n IH]; intros st s fuel p Hn Hfuel.
  - exists (serialBuffer st), (p + 0).
    destruct (drop p (serialBuffer st)) as [|c r] eqn:E; [|simpl in Hn; lia].
    split; [done|].
    rewrite strtok_at_end by (fold p; by rewrite E).
    fold p. rewrite whileParts_None. simpl. by destruct st.
  - set (mem := serialBuffer st) in *. set (rest := drop p mem) in *.
    set (k1 := span (fun c => (c =? ",")%char) rest).
    pose proof (span_take (fun c => (c =? ",")%char) rest) as Hcommas.
    pose proof (span_drop (fun c => (c =? ",")%char) rest) as Hhead.
    fold k1 in Hcommas, Hhead.
    assert (Hrest : rest = take k1 rest ++ drop k1 rest) by by rewrite take_drop.
    assert (Hr1 : drop k1 rest = drop (p + k1) mem)
      by (unfold rest; by rewrite drop_drop).
    rewrite Hrest, segments_commas by done.
    pose proof (f_equal length Hrest) as Hlen. rewrite length_app in Hlen.
    unfold strtok. fold p mem. unfold strspn. fold rest k1.
    rewrite (peek_drop0 mem (p + k1)), <- Hr1.
    destruct (drop k1 rest) as [|c r1] eqn:E1.
    { exists mem, (p + k1). split; [done|].
      change (peek [] 0 =? NUL)%char with true. cbv iota.
      rewrite whileParts_None. simpl. by destruct st. }
    destruct (Ascii.eqb_spec c NUL) as [->|HcN].
    { exists mem, (p + k1). split; [done|].
      change (peek (NUL :: r1) 0 =? NUL)%char with true. cbv iota.
      rewrite whileParts_None. simpl. by destruct st. }
    assert (peek (c :: r1) 0 = c) as -> by reflexivity.
    destruct (c =? NUL)%char eqn:EcN; [by apply Ascii.eqb_eq in EcN|].
    unfold strcspn. rewrite <- Hr1.
    set (k2 := span (fun c0 => negb (c0 =? ",")%char && negb (c0 =? NUL)%char)
                 (c :: r1)).
    pose proof (span_take tokenChar (c :: r1)) as Htok.
    pose proof (span_drop tokenChar (c :: r1)) as Hend.
    pose proof (span_le tokenChar (c :: r1)) as Hk2.
    change (span tokenChar (c :: r1)) with k2 in Htok, Hend, Hk2.
    assert (Hk2pos : 1 <= k2).
    { unfold k2. simpl. rewrite Hhead, EcN. simpl. lia. }
    set (tok := take k2 (c :: r1)) in *.
    assert (Htokne : tok <> []).
    { unfold tok. destruct k2; [lia|]. done. }
    assert (Hltok : length tok = k2).
    { unfold tok. rewrite length_take. lia. }
    assert (Hr1' : c :: r1 = tok ++ drop k2 (c :: r1))
      by (unfold tok; by rewrite take_drop).
    assert (Hr2 : drop k2 (c :: r1) = drop (p + k1 + k2) mem)
      by (rewrite Hr1; by rewrite drop_drop).
    pose proof (f_equal length Hr1') as Hlen1. rewrite length_app in Hlen1.
    assert (Hfuelpos : exists f, fuel = S f) by (exists (fuel - 1); simpl in *; lia).
    destruct Hfuelpos as [f ->].
    assert (Hmem1 : drop (p + k1) mem = tok ++ drop k2 (c :: r1)) by congruence.
    rewrite (peek_drop0 mem (p + k1 + k2)), <- Hr2.
    destruct (drop k2 (c :: r1)) as [|c2 r2] eqn:E2.
    + (* the token runs to the end of the memory *)
      exists mem, (p + k1 + k2 + 0). split; [done|].
      rewrite Hr1', segments_last by done.
      cbn [peek lookup list_lookup default Ascii.eqb Bool.eqb NUL id].
      change (("000"%char =? "000"%char)%char) with true. cbv iota.
      cbn [whileParts]. rewrite processPart_applySegment.
      cbn [serialBuffer set_strtok_save]. fold mem.
      unfold cstr. rewrite Hmem1, cstr_of_app, app_nil_r
        by (simpl; by apply tokenChar_no_NUL).
      rewrite strtok_at_end.
      2:{ rewrite applySegment_strtok_save, applySegment_serialBuffer.
          cbn [strtok_save serialBuffer set_strtok_save]. fold mem.
          by rewrite <- Hr2. }
      rewrite applySegment_strtok_save. cbn [strtok_save set_strtok_save].
      rewrite applySegment_set_strtok_save, whileParts_None. f_equal.
        apply set_strtok_save_twice, applySegment_serialBuffer.
    + destruct (Ascii.eqb_spec c2 NUL) as [->|Hc2N].
      * (* the token ends at the terminator *)
        exists mem, (p + k1 + k2 + 0). split; [done|].
        rewrite Hr1', segments_last by done.
        cbn [peek lookup list_lookup default id].
        change ((NUL =? NUL)%char) with true. cbv iota.
        cbn [whileParts]. rewrite processPart_applySegment.
        cbn [serialBuffer set_strtok_save]. fold mem.
        unfold cstr. rewrite Hmem1, cstr_of_app by by apply tokenChar_no_NUL.
        simpl cstr_of. rewrite app_nil_r.
        rewrite strtok_at_end.
        2:{ rewrite applySegment_strtok_save, applySegment_serialBuffer.
            cbn [strtok_save serialBuffer set_strtok_save]. fold mem.
            by rewrite <- Hr2. }
        rewrite applySegment_strtok_save. cbn [strtok_save set_strtok_save].
        rewrite applySegment_set_strtok_save, whileParts_None. f_equal.
        apply set_strtok_save_twice, applySegment_serialBuffer.
      * (* the token ends at a comma, which strtok overwrites *)
        assert (c2 = ",") as ->.
        { unfold tokenChar in Hend. destruct (Ascii.eqb_spec c2 ","); [done|].
          destruct (Ascii.eqb_spec c2 NUL); done. }
        assert (peek ("," :: r2) 0 = ",") as -> by reflexivity.
        change (("," =? NUL)%char) with false. cbv iota.
        set (e := p + k1 + k2) in *.
        assert (He : e < length mem).
        { apply lookup_lt_is_Some. rewrite <- (Nat.add_0_r e), <- lookup_drop, <- Hr2.
          by eexists. }
        set (mem' := <[e:=NUL]> mem).
        assert (Hdrop' : drop (S e) mem' = r2).
        { unfold mem'. rewrite drop_insert_lt by lia.
          replace (S e) with (e + 1) by lia. by rewrite <- drop_drop, <- Hr2. }
        assert (Hcstr' : cstr mem' (p + k1) = tok).
        { unfold cstr, mem'. rewrite drop_insert_ge by lia. rewrite Hmem1.
          replace (e - (p + k1)) with (length tok + 0) by (unfold e; lia).
          rewrite insert_app_r. simpl.
          rewrite cstr_of_app by by apply tokenChar_no_NUL.
          simpl. apply app_nil_r. }
        cbn [whileParts]. rewrite processPart_applySegment.
        cbn [serialBuffer set_strtok_save set_serialBuffer]. fold mem'.
        rewrite Hcstr'.
        set (st1 := set_strtok_save (S e) (set_serialBuffer mem' st)).
        destruct (IH (applySegment tok st1) None f) as (b & k & Hb & Hrun).
        { rewrite applySegment_strtok_save, applySegment_serialBuffer.
          cbn [st1 strtok_save serialBuffer set_strtok_save set_serialBuffer].
          rewrite Hdrop'. simpl in *. lia. }
        { rewrite applySegment_strtok_save, applySegment_serialBuffer.
          cbn [st1 strtok_save serialBuffer set_strtok_save set_serialBuffer].
          rewrite Hdrop'. simpl in *. lia. }
        exists b, k. split.
        { rewrite Hb, applySegment_serialBuffer. unfold st1, mem'. simpl.
          by rewrite length_insert. }
        rewrite Hrun. f_equal.
        rewrite applySegment_strtok_save, applySegment_serialBuffer.
        cbn [st1 strtok_save serialBuffer set_strtok_save set_serialBuffer].
        rewrite Hdrop', Hr1', segments_more by done.
        unfold st1.
        rewrite applySegment_set_strtok_save, applySegment_set_serialBuffer.
        rewrite runSegments_set_strtok_save, runSegments_set_serialBuffer.
        reflexivity.
Qed.

Lemma strtok_buffer_length s st :
  length (serialBuffer (strtok s "," st).2) = length (serialBuffer st).
Proof.
  unfold strtok.
  repeat match goal with
         | |- context [if ?x then _ else _] => destruct x
         end; simpl; rewrite ?length_insert; reflexivity.
Qed.

(** [processCommand] returns, and what it does to the lanes and the
    hardware is [applyLine] of the text in the buffer. *)
Lemma processCommand_applyLine st :
  exists b k,
    length b = length (serialBuffer st)
    /\ processCommand 0 st
       = Some (set_serialBuffer b (set_strtok_save k
                 (applyLine (serialBuffer st) st))).
Proof.
  unfold processCommand, cstr. rewrite drop_0.
  change (set_hw _ st) with (echo (serialBuffer st) st).
  set (st0 := echo (serialBuffer st) st).
  destruct (whileParts_segments (length (serialBuffer st)) st0 (Some 0)
              (length (serialBuffer st))) as (b & k & Hb & Hrun);
    [simpl; by rewrite drop_0 .. |].
  exists b, k. split; [exact Hb|].
  pose proof (strtok_buffer_length (Some 0) st0) as Hlen.
  destruct (strtok (Some 0) "," st0) as [part st1].
  simpl in Hlen. rewrite Hlen. exact Hrun.
Qed.

(** *** The three branches of [loop] *)

Lemma loop_idle st : serialRx (hw st) = [] -> loop st = Some st.
Proof. intros H. unfold loop. by rewrite H. Qed.

Lemma loop_append st c rx :
  serialRx (hw st) = c :: rx -> c <> LF ->
  serialBufferIndex st < SERIAL_BUFFER_SIZE - 1 ->
  loop st
  = Some (set_serialBufferIndex (S (serialBufferIndex st))
            (set_serialBuffer (<[serialBufferIndex st := c]> (serialBuffer st))
               (set_hw (set_serialRx rx (hw st)) st))).
Proof.
  intros Hrx Hc Hidx. unfold loop. rewrite Hrx.
  destruct (Ascii.eqb_spec c LF); [done|].
  cbn [serialBufferIndex set_hw serialBuffer].
  destruct (Nat.ltb_spec (serialBufferIndex st) (SERIAL_BUFFER_SIZE - 1));
    [reflexivity | lia].
Qed.

Lemma loop_overflow st c rx :
  serialRx (hw st) = c :: rx -> c <> LF ->
  SERIAL_BUFFER_SIZE - 1 <= serialBufferIndex st ->
  loop st
  = Some (set_serialBufferIndex 0
            (set_hw (Serial_println
                       (lit "Error: Serial buffer overflow. Command ignored.")
                       (set_serialRx rx (hw st))) st)).
Proof.
  intros Hrx Hc Hidx. unfold loop. rewrite Hrx.
  destruct (Ascii.eqb_spec c LF); [done|].
  cbn [serialBufferIndex set_hw serialBuffer].
  destruct (Nat.ltb_spec (serialBufferIndex st) (SERIAL_BUFFER_SIZE - 1));
    [lia | reflexivity].
Qed.

Lemma loop_newline st rx :
  serialRx (hw st) = LF :: rx ->
  loop st
  = match processCommand 0
            (set_serialBuffer
               (<[serialBufferIndex st := NUL]> (serialBuffer st))
               (set_hw (set_serialRx rx (hw st)) st)) with
    | Some st' => Some (set_serialBufferIndex 0 st')
    | None => None
    end.
Proof. intros Hrx. unfold loop. rewrite Hrx. reflexivity. Qed.

Lemma loops_add n m st :
  loops (n + m) st = match loops n st with
                     | Some st' => loops m st'
                     | None => None
                     end.
Proof.
  revert st. induction n as [|n IH]; intros st; simpl; [done|].
  destruct (loop st); [apply IH | done].
Qed.

(** Bytes of a line that fit are stored one after the other. *)
Lemma loops_accumulate line : forall st more,
  length (serialBuffer st) = SERIAL_BUFFER_SIZE ->
  serialRx (hw st) = line ++ more ->
  Forall (fun c => c <> LF) line ->
  serialBufferIndex st + length line < SERIAL_BUFFER_SIZE ->
  loops (length line) st
  = Some (set_serialBufferIndex (serialBufferIndex st + length line)
            (set_serialBuffer
               (take (serialBufferIndex st) (serialBuffer st) ++ line
                  ++ drop (serialBufferIndex st + length line) (serialBuffer st))
               (set_hw (set_serialRx more (hw st)) st))).
Proof.
  induction line as [|c line IH]; intros st more Hbuf Hrx Hline Hfit.
  - simpl in *. rewrite !Nat.add_0_r, take_drop. f_equal.
    destruct st as [? ? ? ? ? ? ? []]. simpl in *. by subst.
  - apply Forall_cons in Hline as [Hc Hline]. simpl in Hfit, Hrx.
    cbn [length loops].
    rewrite (loop_append st c (line ++ more)) by (done || unfold SERIAL_BUFFER_SIZE in *; lia).
    rewrite (IH _ more); cbn [serialBuffer serialBufferIndex hw set_serialBufferIndex
                     set_serialBuffer set_hw set_serialRx serialRx];
      [| by rewrite length_insert | done | done | lia].
    f_equal.
    assert (Hlt : serialBufferIndex st < length (serialBuffer st))
      by (rewrite Hbuf; lia).
    rewrite (take_S_r _ _ c) by by apply list_lookup_insert_eq.
    rewrite take_insert_ge by lia. rewrite drop_insert_lt by lia.
    rewrite <- app_assoc. simpl.
    replace (S (serialBufferIndex st + length line))
      with (serialBufferIndex st + S (length line)) by lia.
    reflexivity.
Qed.

Lemma cstr_of_app_NUL a b : cstr_of (a ++ NUL :: b) = cstr_of a.
Proof.
  induction a as [|c a IH]; simpl; [done|].
  destruct (c =? NUL)%char; [done | by rewrite IH].
Qed.

Lemma applyLine_cstr_of l1 l2 st :
  cstr_of l1 = cstr_of l2 -> applyLine l1 st = applyLine l2 st.
Proof. intros H. unfold applyLine, echo, segments. by rewrite H. Qed.

Lemma applySegment_set_serialBufferIndex i seg st :
  applySegment seg (set_serialBufferIndex i st)
  = set_serialBufferIndex i (applySegment seg st).
Proof.
  unfold applySegment. simpl.
  repeat match goal with
         | |- context [match ?x with _ => _ end] => destruct x
         end; reflexivity.
Qed.

Lemma runSegments_set_serialBufferIndex i segs st :
  runSegments segs (set_serialBufferIndex i st)
  = set_serialBufferIndex i (runSegments segs st).
Proof.
  revert st. induction segs as [|seg segs IH]; intros st; simpl; [done|].
  by rewrite applySegment_set_serialBufferIndex, IH.
Qed.

Lemma runSegments_serialBufferIndex segs st :
  serialBufferIndex (runSegments segs st) = serialBufferIndex st.
Proof.
  revert st. induction segs as [|seg segs IH]; intros st; simpl; [done|].
  by rewrite IH, applySegment_serialBufferIndex.
Qed.

Lemma applyLine_set_serialBuffer b line st :
  applyLine line (set_serialBuffer b st) = set_serialBuffer b (applyLine line st).
Proof.
  unfold applyLine. rewrite <- runSegments_set_serialBuffer. reflexivity.
Qed.

Lemma applyLine_set_serialBufferIndex i line st :
  applyLine line (set_serialBufferIndex i st)
  = set_serialBufferIndex i (applyLine line st).
Proof.
  unfold applyLine. rewrite <- runSegments_set_serialBufferIndex. reflexivity.
Qed.

Lemma applyLine_serialBufferIndex line st :
  serialBufferIndex (applyLine line st) = serialBufferIndex st.
Proof. unfold applyLine. by rewrite runSegments_serialBufferIndex. Qed.

(** A line that fits in the buffer, received from the start of the
    buffer and followed by its terminator: [loop] stores it, hands it to
    [processCommand], which returns, and the lanes and the hardware are
    as [applyLine] leaves them.  What the buffer held before does not
    matter. *)
Lemma loops_line st line more :
  length (serialBuffer st) = SERIAL_BUFFER_SIZE ->
  serialBufferIndex st = 0 ->
  serialRx (hw st) = line ++ LF :: more ->
  Forall (fun c => c <> LF) line ->
  length line < SERIAL_BUFFER_SIZE ->
  exists b k,
    length b = SERIAL_BUFFER_SIZE
    /\ loops (S (length line)) st
       = Some (set_serialBuffer b (set_strtok_save k
                 (applyLine line (set_hw (set_serialRx more (hw st)) st)))).
Proof.
  intros Hbuf Hidx Hrx Hline Hfit.
  replace (S (length line)) with (length line + 1) by lia.
  rewrite loops_add, (loops_accumulate line st (LF :: more))
    by (done || lia).
  rewrite Hidx, take_0. cbn [app Nat.add loops].
  set (buf := line ++ drop (length line) (serialBuffer st)).
  rewrite (loop_newline _ more) by reflexivity.
  cbn [serialBuffer serialBufferIndex hw set_serialBufferIndex
       set_serialBuffer set_hw set_serialRx serialRx].
  set (st1 := set_serialBuffer _ _).
  destruct (processCommand_applyLine st1) as (b & k & Hb & ->).
  exists b, k. split.
  { rewrite Hb. unfold st1, buf. cbn [serialBuffer set_serialBuffer].
    rewrite length_insert, length_app, length_drop. lia. }
  f_equal. unfold st1. cbn [serialBuffer set_serialBuffer].
  assert (Hcstr : cstr_of (<[length line:=NUL]> buf) = cstr_of line).
  { unfold buf. replace (length line) with (length line + 0) at 1 by lia.
    rewrite insert_app_r.
    destruct (drop (length line) (serialBuffer st)) as [|x r] eqn:E.
    - apply (f_equal length) in E. rewrite length_drop in E. simpl in E. lia.
    - simpl. apply cstr_of_app_NUL. }
  rewrite (applyLine_cstr_of _ line) by exact Hcstr.
  match goal with
  | |- context [applyLine line ?s] =>
      change s with
        (set_serialBuffer (<[length line:=NUL]> buf)
           (set_serialBufferIndex (length line)
              (set_hw (set_serialRx more (hw st)) st)))
  end.
  rewrite applyLine_set_serialBuffer, applyLine_set_serialBufferIndex.
  pose proof (applyLine_serialBufferIndex line
                (set_hw (set_serialRx more (hw st)) st)) as Hi.
  cbn [serialBufferIndex set_hw] in Hi. rewrite Hidx in Hi.
  destruct (applyLine line (set_hw (set_serialRx more (hw st)) st)).
  simpl in *. by subst.
Qed.

(** ** Directives and the lanes *)

Lemma Serial_print_print a b h :
  Serial_print b (Serial_print a h) = Serial_print (a ++ b) h.
Proof. unfold Serial_print. simpl. by rewrite app_assoc. Qed.

Lemma laneOfCode_laneCodeOf id : laneOfCode (laneCodeOf id) = Some id.
Proof. by destruct id. Qed.

Lemma laneOfCode_Some c id : laneOfCode c = Some id -> c = laneCodeOf id.
Proof.
  unfold laneOfCode.
  destruct (Ascii.eqb_spec c "N") as [->|_]; [by intros [= <-]|].
  destruct (Ascii.eqb_spec c "E") as [->|_]; [by intros [= <-]|].
  destruct (Ascii.eqb_spec c "S") as [->|_]; [by intros [= <-]|].
  destruct (Ascii.eqb_spec c "W") as [->|_]; [by intros [= <-]|].
  done.
Qed.

Lemma decode_directive id c : decode [laneCodeOf id; ":"; c] = Some (id, c).
Proof. by destruct id. Qed.

(** A segment either carries a directive, which goes to the lane model,
    or is reported and skipped. *)
Lemma applySegment_decode seg st :
  applySegment seg st
  = match decode seg with
    | Some (id, c) => applyDirective id c st
    | None => set_hw (Serial_print (segmentReport seg) (hw st)) st
    end.
Proof.
  unfold applySegment, decode, segmentReport, applyDirective, laneOfCode,
    Serial_println, malformedText, unknownLaneText.
  destruct seg as [|a [|b [|c [|d r]]]]; rewrite ?Serial_print_print; try done.
  destruct (b =? ":")%char; rewrite ?Serial_print_print; [|done].
  destruct (a =? "N")%char; [done|].
  destruct (a =? "E")%char; [done|].
  destruct (a =? "S")%char; [done|].
  destruct (a =? "W")%char; done.
Qed.

Lemma segmentReport_directive seg id c :
  decode seg = Some (id, c) ->
  segmentReport seg = if isRYG c then [] else unknownStateText c.
Proof.
  unfold decode, segmentReport.
  destruct seg as [|a [|b [|c' [|d r]]]]; try done.
  destruct (b =? ":")%char; [|done].
  destruct (laneOfCode a); [|done]. by intros [= _ ->].
Qed.

Lemma laneOf_setLane_same id l st : laneOf id (setLane id l st) = l.
Proof. by destruct id. Qed.

Lemma laneOf_setLane_other id id' l st :
  id' <> id -> laneOf id' (setLane id l st) = laneOf id' st.
Proof. by destruct id, id'. Qed.

Lemma laneOf_applyDirective_same id c st :
  laneOf id (applyDirective id c st) = (setLaneState (laneOf id st) c (hw st)).1.
Proof.
  unfold applyDirective. destruct (setLaneState _ _ _) as [l h].
  by destruct id.
Qed.

Lemma laneOf_applyDirective_other id id' c st :
  id' <> id -> laneOf id' (applyDirective id c st) = laneOf id' st.
Proof.
  intros Hne. unfold applyDirective. destruct (setLaneState _ _ _) as [l h].
  by destruct id, id'.
Qed.

Lemma hw_applyDirective id c st :
  hw (applyDirective id c st) = (setLaneState (laneOf id st) c (hw st)).2.
Proof.
  unfold applyDirective. destruct (setLaneState _ _ _) as [l h].
  by destruct id.
Qed.

Lemma serialBuffer_applyDirective id c st :
  serialBuffer (applyDirective id c st) = serialBuffer st.
Proof.
  unfold applyDirective. destruct (setLaneState _ _ _) as [l h].
  by destruct id.
Qed.

Lemma serialBufferIndex_applyDirective id c st :
  serialBufferIndex (applyDirective id c st) = serialBufferIndex st.
Proof.
  unfold applyDirective. destruct (setLaneState _ _ _) as [l h].
  by destruct id.
Qed.

Lemma pinsOf_distinct id l : lanePins l = pinsOf id -> pinsDistinct l.
Proof.
  destruct l as [r y g cl]. unfold lanePins, pinsDistinct. simpl.
  destruct id; intros [= -> -> ->]; by compute.
Qed.

Lemma pinsOf_apart id id' l l' :
  id' <> id -> lanePins l = pinsOf id -> lanePins l' = pinsOf id' ->
  forall pin, pin = redPin l' \/ pin = yellowPin l' \/ pin = greenPin l' ->
    pin <> redPin l /\ pin <> yellowPin l /\ pin <> greenPin l.
Proof.
  destruct l as [r y g cl], l' as [r' y' g' cl']. unfold lanePins. simpl.
  intros Hne Hl Hl' pin Hpin.
  destruct id, id'; try done; injection Hl as -> -> ->;
    injection Hl' as -> -> ->;
    destruct Hpin as [-> | [-> | ->]]; by compute.
Qed.

Lemma wf_applyDirective id c st : wf st -> wf (applyDirective id c st).
Proof.
  intros [Hpins Hbuf Hidx]. split.
  - intros id'. destruct (decide (id' = id)) as [->|Hne].
    + by rewrite laneOf_applyDirective_same, setLaneState_pins.
    + by rewrite laneOf_applyDirective_other.
  - by rewrite serialBuffer_applyDirective.
  - by rewrite serialBufferIndex_applyDirective.
Qed.

(** The lane a directive names shows the requested state. *)
Lemma laneView_applyDirective_same id c st :
  wf st -> laneView id (applyDirective id c st) = (recorded c, lampsFor c).
Proof.
  intros Hwf. unfold laneView.
  rewrite laneOf_applyDirective_same, hw_applyDirective.
  rewrite setLaneState_currentLed, setLaneState_lamps; [done|].
  eapply pinsOf_distinct, wf_pins, Hwf.
Qed.

(** Every other lane is left as it was, record and lamps. *)
Lemma laneView_applyDirective_other id id' c st :
  wf st -> id' <> id ->
  laneView id' (applyDirective id c st) = laneView id' st.
Proof.
  intros Hwf Hne. unfold laneView, lamps.
  rewrite laneOf_applyDirective_other, hw_applyDirective by done.
  pose proof (pinsOf_apart id id' (laneOf id st) (laneOf id' st) Hne
                (wf_pins st Hwf id) (wf_pins st Hwf id')) as Hapart.
  rewrite !setLaneState_level_other; try reflexivity;
    apply Hapart; auto.
Qed.

Lemma laneView_set_hw_print id s st :
  laneView id (set_hw (Serial_print s (hw st)) st) = laneView id st.
Proof. by destruct id. Qed.

Lemma wf_set_hw h st : wf st -> wf (set_hw h st).
Proof.
  intros [Hpins Hbuf Hidx]. split; [|done..].
  intros id. specialize (Hpins id). by destruct id.
Qed.

Lemma wf_applySegment seg st : wf st -> wf (applySegment seg st).
Proof.
  intros Hwf. rewrite applySegment_decode.
  destruct (decode seg) as [[id c]|].
  - by apply wf_applyDirective.
  - by apply wf_set_hw.
Qed.

Lemma wf_runSegments segs st : wf st -> wf (runSegments segs st).
Proof.
  revert st. induction segs as [|seg segs IH]; intros st Hwf; simpl; [done|].
  by apply IH, wf_applySegment.
Qed.

Lemma laneView_applySegment id seg st :
  wf st ->
  laneView id (applySegment seg st)
  = match decode seg with
    | Some (id', c) =>
        if decide (id' = id) then (recorded c, lampsFor c) else laneView id st
    | None => laneView id st
    end.
Proof.
  intros Hwf. rewrite applySegment_decode.
  destruct (decode seg) as [[id' c]|].
  - destruct (decide (id' = id)) as [->|Hne].
    + by apply laneView_applyDirective_same.
    + apply laneView_applyDirective_other; [done | congruence].
  - apply laneView_set_hw_print.
Qed.

(** Last writer wins: after the segments have run, a lane shows the
    state of the last directive that names it, and is as before when no
    directive names it. *)
Lemma laneView_runSegments id segs : forall st,
  wf st ->
  laneView id (runSegments segs st)
  = match lastFor id segs with
    | Some c => (recorded c, lampsFor c)
    | None => laneView id st
    end.
Proof.
  induction segs as [|seg segs IH] using rev_ind; intros st Hwf; [done|].
  unfold runSegments, lastFor. rewrite !foldl_app. simpl.
  fold (runSegments segs st). fold (lastFor id segs).
  rewrite laneView_applySegment by by apply wf_runSegments.
  destruct (decode seg) as [[id' c]|]; [|by apply IH].
  destruct (decide (id' = id)); [done | by apply IH].
Qed.

(** ** The status channel *)

Lemma noLF_Forall s : noLF s = true <-> Forall (fun c => c <> LF) s.
Proof.
  unfold noLF. rewrite forallb_forall, Forall_forall.
  setoid_rewrite <- list_elem_of_In.
  split; intros H c Hc; specialize (H c Hc);
    destruct (Ascii.eqb_spec c LF); done.
Qed.

Lemma noLF_app a b : noLF (a ++ b) = noLF a && noLF b.
Proof. apply forallb_app. Qed.

Lemma noLF_cstr_of l : noLF l = true -> noLF (cstr_of l) = true.
Proof.
  induction l as [|c l IH]; simpl; [done|].
  intros [Hc Hl]%andb_prop. destruct (c =? NUL)%char; [done|].
  simpl. by rewrite Hc, IH.
Qed.

Lemma noLF_splitOn d l :
  noLF l = true -> Forall (fun s => noLF s = true) (splitOn d l).
Proof.
  induction l as [|c l IH]; simpl; [by repeat constructor|].
  intros [Hc Hl]%andb_prop. specialize (IH Hl).
  destruct (c =? d)%char; [by constructor|].
  destruct (splitOn d l) as [|s ss].
  { constructor; [|constructor]. simpl. by rewrite Hc. }
  apply Forall_cons in IH as [Hs Hss]. constructor; [|done].
  simpl. by rewrite Hc.
Qed.

Lemma noLF_segments line :
  noLF line = true -> Forall (fun s => noLF s = true) (segments line).
Proof.
  intros H. unfold segments. apply Forall_forall. intros s Hs.
  apply list_elem_of_In, filter_In in Hs as [Hs _].
  apply noLF_cstr_of, (noLF_splitOn ",") in H.
  rewrite Forall_forall in H. by apply H, list_elem_of_In.
Qed.

Lemma linesFrom_line a : forall cur b,
  noLF a = true ->
  linesFrom cur (a ++ LF :: b) = (cur ++ a) :: linesFrom [] b.
Proof.
  induction a as [|c a IH]; intros cur b Ha; simpl.
  - by rewrite app_nil_r.
  - simpl in Ha. apply andb_prop in Ha as [Hc Ha].
    destruct (c =? LF)%char; [done|].
    rewrite IH by done. by rewrite <- app_assoc.
Qed.

(** One more line in front: one more diagnostic when it is one. *)
Lemma diagnostics_line a b :
  noLF a = true ->
  diagnostics (a ++ LF :: b)
  = (if isDiagnostic a then 1 else 0) + diagnostics b.
Proof.
  intros Ha. unfold diagnostics, lines. rewrite linesFrom_line by done.
  simpl app. cbn [List.filter]. by destruct (isDiagnostic a).
Qed.

Lemma diagnostics_println a b :
  noLF a = true ->
  diagnostics (a ++ [CR; LF] ++ b)
  = (if isDiagnostic (a ++ [CR]) then 1 else 0) + diagnostics b.
Proof.
  intros Ha. rewrite <- (diagnostics_line (a ++ [CR]) b).
  - by rewrite <- app_assoc.
  - by rewrite noLF_app, Ha.
Qed.

Lemma diagnostics_echoText line rest :
  noLF line = true ->
  diagnostics (echoText line ++ rest) = diagnostics rest.
Proof.
  intros H. unfold echoText. rewrite <- !app_assoc, app_assoc.
  rewrite diagnostics_println; [reflexivity|].
  rewrite noLF_app. by rewrite noLF_cstr_of.
Qed.

Lemma diagnostics_overflowText rest :
  diagnostics (overflowText ++ rest) = 1 + diagnostics rest.
Proof.
  unfold overflowText. rewrite <- app_assoc.
  by rewrite diagnostics_println.
Qed.

Lemma diagnostics_segmentReport seg rest :
  noLF seg = true ->
  diagnostics (segmentReport seg ++ rest)
  = (if reports seg then 1 else 0) + diagnostics rest.
Proof.
  intros H. unfold segmentReport, reports, decode.
  assert (Hmal : diagnostics (malformedText seg ++ rest) = 1 + diagnostics rest).
  { unfold malformedText. rewrite <- !app_assoc, app_assoc.
    rewrite diagnostics_println; [reflexivity|].
    by rewrite noLF_app, H. }
  destruct seg as [|a [|b [|c [|d r]]]]; try exact Hmal.
  destruct (b =? ":")%char; [|exact Hmal].
  destruct (laneOfCode a).
  - destruct (isRYG c); [reflexivity|]. simpl negb. cbv iota.
    unfold unknownStateText.
    change (lit "Unknown light state '" ++ [c]
            ++ lit "' for a lane. Turning all off." ++ [CR; LF])
      with ((lit "Unknown light state '" ++ [c]
             ++ lit "' for a lane. Turning all off.") ++ [CR; LF]).
    rewrite <- app_assoc, diagnostics_println; [reflexivity|].
    simpl in H. apply andb_prop in H as [_ [_ [Hc _]%andb_prop]%andb_prop].
    simpl. by rewrite Hc.
  - unfold unknownLaneText.
    change (lit "Unknown lane code: " ++ [a; CR; LF])
      with ((lit "Unknown lane code: " ++ [a]) ++ [CR; LF]).
    rewrite <- app_assoc, diagnostics_println; [reflexivity|].
    simpl in H. apply andb_prop in H as [Ha _]. simpl. by rewrite Ha.
Qed.

Lemma diagnostics_reports segs :
  Forall (fun s => noLF s = true) segs ->
  diagnostics (concat (map segmentReport segs))
  = length (List.filter reports segs).
Proof.
  induction 1 as [|seg segs Hseg _ IH]; [reflexivity|].
  cbn [map concat List.filter].
  rewrite diagnostics_segmentReport, IH by done.
  by destruct (reports seg).
Qed.

(** *** What a line writes *)

Lemma serialTx_applySegment seg st :
  serialTx (hw (applySegment seg st)) = serialTx (hw st) ++ segmentReport seg.
Proof.
  rewrite applySegment_decode.
  destruct (decode seg) as [[id c]|] eqn:E; [|reflexivity].
  rewrite hw_applyDirective, setLaneState_serialTx.
  by rewrite (segmentReport_directive seg id c).
Qed.

Lemma serialTx_runSegments segs : forall st,
  serialTx (hw (runSegments segs st))
  = serialTx (hw st) ++ concat (map segmentReport segs).
Proof.
  induction segs as [|seg segs IH]; intros st; simpl.
  - by rewrite app_nil_r.
  - change (foldl _ (applySegment seg st) segs)
      with (runSegments segs (applySegment seg st)).
    by rewrite IH, serialTx_applySegment, <- app_assoc.
Qed.

Lemma serialTx_applyLine line st :
  serialTx (hw (applyLine line st))
  = serialTx (hw st) ++ echoText line
    ++ concat (map segmentReport (segments line)).
Proof.
  unfold applyLine. rewrite serialTx_runSegments. unfold echo, echoText.
  unfold Serial_println. rewrite Serial_print_print.
  cbn [hw set_hw serialTx Serial_print]. by rewrite <- !app_assoc.
Qed.

Lemma pinTrace_applySegment seg st :
  pinTrace (hw (applySegment seg st))
  = pinTrace (hw st)
    ++ match decode seg with
       | Some (id, c) => laneWrites (laneOf id st) c
       | None => []
       end.
Proof.
  rewrite applySegment_decode.
  destruct (decode seg) as [[id c]|]; [|simpl; by rewrite app_nil_r].
  by rewrite hw_applyDirective, setLaneState_pinTrace.
Qed.

Lemma serialRx_applySegment seg st :
  serialRx (hw (applySegment seg st)) = serialRx (hw st).
Proof.
  rewrite applySegment_decode.
  destruct (decode seg) as [[id c]|]; [|reflexivity].
  by rewrite hw_applyDirective, setLaneState_serialRx.
Qed.

Lemma serialRx_runSegments segs : forall st,
  serialRx (hw (runSegments segs st)) = serialRx (hw st).
Proof.
  induction segs as [|seg segs IH]; intros st; simpl; [done|].
  change (foldl _ (applySegment seg st) segs)
    with (runSegments segs (applySegment seg st)).
  by rewrite IH, serialRx_applySegment.
Qed.

Lemma serialRx_applyLine line st :
  serialRx (hw (applyLine line st)) = serialRx (hw st).
Proof. unfold applyLine. by rewrite serialRx_runSegments. Qed.

(** ** Reachable states *)

Lemma wf_setup h : wf (setup (power_on h)).
Proof.
  split.
  - intros []; reflexivity.
  - reflexivity.
  - unfold SERIAL_BUFFER_SIZE. simpl. lia.
Qed.

Lemma wf_receive bs st : wf st -> wf (receive bs st).
Proof. apply wf_set_hw. Qed.

Lemma wf_set_serialBuffer b st :
  length b = SERIAL_BUFFER_SIZE -> wf st -> wf (set_serialBuffer b st).
Proof.
  intros Hb [Hpins Hbuf Hidx]. split; [|done..].
  intros id. specialize (Hpins id). by destruct id.
Qed.

Lemma wf_set_serialBufferIndex i st :
  i < SERIAL_BUFFER_SIZE -> wf st -> wf (set_serialBufferIndex i st).
Proof.
  intros Hi [Hpins Hbuf Hidx]. split; [|done..].
  intros id. specialize (Hpins id). by destruct id.
Qed.

Lemma wf_set_strtok_save k st : wf st -> wf (set_strtok_save k st).
Proof.
  intros [Hpins Hbuf Hidx]. split; [|done..].
  intros id. specialize (Hpins id). by destruct id.
Qed.

Lemma wf_applyLine line st : wf st -> wf (applyLine line st).
Proof. intros H. by apply wf_runSegments, wf_set_hw. Qed.

Lemma laneView_set_hw_set_serialRx id rx st :
  laneView id (set_hw (set_serialRx rx (hw st)) st) = laneView id st.
Proof. by destruct id. Qed.

Lemma laneView_set_serialBuffer id b st :
  laneView id (set_serialBuffer b st) = laneView id st.
Proof. by destruct id. Qed.

Lemma laneView_set_serialBufferIndex id i st :
  laneView id (set_serialBufferIndex i st) = laneView id st.
Proof. by destruct id. Qed.

Lemma laneView_set_strtok_save id k st :
  laneView id (set_strtok_save k st) = laneView id st.
Proof. by destruct id. Qed.

Lemma laneView_applyLine id line st :
  wf st ->
  laneView id (applyLine line st)
  = match lastFor id (segments line) with
    | Some c => (recorded c, lampsFor c)
    | None => laneView id st
    end.
Proof.
  intros Hwf. unfold applyLine.
  rewrite laneView_runSegments by by apply wf_set_hw.
  destruct (lastFor id (segments line)); [done|].
  unfold echo, Serial_println. rewrite Serial_print_print.
  apply laneView_set_hw_print.
Qed.

(** [loop] always returns. *)
Lemma loop_total st : exists st', loop st = Some st'.
Proof.
  unfold loop. destruct (serialRx (hw st)) as [|c rx]; [by eexists|].
  destruct (c =? LF)%char.
  - match goal with
    | |- context [processCommand 0 ?s] =>
        destruct (processCommand_applyLine s) as (b & k & _ & ->)
    end. by eexists.
  - destruct (_ <? _); by eexists.
Qed.

Lemma loops_total n : forall st, exists st', loops n st = Some st'.
Proof.
  induction n as [|n IH]; intros st; simpl; [by eexists|].
  destruct (loop_total st) as [st1 ->]. apply IH.
Qed.

(** One call of [loop] keeps the state well formed, and leaves each lane
    either as it was or showing the state of a directive. *)
Lemma loop_step st st' :
  wf st -> loop st = Some st' ->
  wf st'
  /\ forall id,
       laneView id st' = laneView id st
       \/ exists c, laneView id st' = (recorded c, lampsFor c).
Proof.
  intros Hwf. unfold loop.
  destruct (serialRx (hw st)) as [|c rx]; [intros [= <-]; by auto|].
  pose proof (wf_buffer _ Hwf) as Hbuf. pose proof (wf_index _ Hwf) as Hidx.
  destruct (c =? LF)%char.
  - match goal with
    | |- context [processCommand 0 ?s] =>
        set (st1 := s);
        destruct (processCommand_applyLine st1) as (b & k & Hb & ->)
    end.
    assert (Hwf1 : wf st1).
    { apply wf_set_serialBuffer; [by rewrite length_insert|].
      by apply wf_set_hw. }
    intros [= <-]. split.
    + apply wf_set_serialBufferIndex; [unfold SERIAL_BUFFER_SIZE; lia|].
      apply wf_set_serialBuffer; [by rewrite Hb; apply wf_buffer|].
      by apply wf_set_strtok_save, wf_applyLine.
    + intros id.
      rewrite laneView_set_serialBufferIndex, laneView_set_serialBuffer,
        laneView_set_strtok_save, laneView_applyLine by done.
      destruct (lastFor id _) as [c'|]; [right; by eexists|].
      left. unfold st1.
      by rewrite laneView_set_serialBuffer, laneView_set_hw_set_serialRx.
  - cbn [serialBufferIndex set_hw serialBuffer hw].
    destruct (Nat.ltb_spec (serialBufferIndex st) (SERIAL_BUFFER_SIZE - 1));
      intros [= <-]; split.
    + apply wf_set_serialBufferIndex; [unfold SERIAL_BUFFER_SIZE in *; lia|].
      apply wf_set_serialBuffer; [by rewrite length_insert|].
      by apply wf_set_hw.
    + intros id. left.
      by rewrite laneView_set_serialBufferIndex, laneView_set_serialBuffer,
        laneView_set_hw_set_serialRx.
    + apply wf_set_serialBufferIndex; [unfold SERIAL_BUFFER_SIZE; lia|].
      by do 2 apply wf_set_hw.
    + intros id. left. by destruct id.
Qed.

(** After [setup] every lane shows red. *)
Lemma laneView_setup id h :
  laneView id (setup (power_on h)) = ("R", lampsFor "R").
Proof.
  unfold laneView, lamps, level. destruct id; cbn; repeat f_equal;
    repeat first [ rewrite lookup_insert_eq
                 | rewrite lookup_insert_ne by done ]; reflexivity.
Qed.

Lemma reachable_inv st :
  reachable st ->
  wf st /\ forall id, exists c, laneView id st = (recorded c, lampsFor c).
Proof.
  induction 1 as [levels | st bs _ [IHwf IHv] | st st' _ [IHwf IHv] Hloop].
  - split; [apply wf_setup|]. intros id. exists "R". apply laneView_setup.
  - split; [by apply wf_receive|]. intros id.
    unfold receive. rewrite laneView_set_hw_set_serialRx. apply IHv.
  - destruct (loop_step st st' IHwf Hloop) as [Hwf' Hv]. split; [done|].
    intros id. destruct (Hv id) as [-> | Hc]; [apply IHv | exact Hc].
Qed.

Lemma reachable_wf st : reachable st -> wf st.
Proof. intros H. by apply reachable_inv. Qed.

(** The number of active lamps when the lamps show state [c]. *)
Lemma activeCount_lampsFor lane h c :
  lamps lane h = lampsFor c -> activeCount lane h = if isRYG c then 1 else 0.
Proof.
  unfold lamps, lampsFor, activeCount, active. intros [= -> -> ->].
  unfold isRYG.
  destruct (Ascii.eqb_spec c "R") as [->|?]; [reflexivity|].
  destruct (Ascii.eqb_spec c "Y") as [->|?]; [reflexivity|].
  destruct (Ascii.eqb_spec c "G") as [->|?]; reflexivity.
Qed.

(** ** Whole lines *)

Lemma control_set_serialBuffer b st : control (set_serialBuffer b st) = control st.
Proof. reflexivity. Qed.

Lemma control_set_strtok_save k st : control (set_strtok_save k st) = control st.
Proof. reflexivity. Qed.

Lemma control_laneOf id a b : control a = control b -> laneOf id a = laneOf id b.
Proof. unfold control. intros [= ? ? ? ? ? ?]. by destruct id. Qed.

Lemma control_hw a b : control a = control b -> hw a = hw b.
Proof. unfold control. by intros [= ? ? ? ? ? ?]. Qed.

Lemma control_serialBufferIndex a b :
  control a = control b -> serialBufferIndex a = serialBufferIndex b.
Proof. unfold control. by intros [= ? ? ? ? ? ?]. Qed.

Lemma control_laneView id a b : control a = control b -> laneView id a = laneView id b.
Proof.
  intros H. unfold laneView.
  by rewrite (control_laneOf id a b H), (control_hw a b H).
Qed.

Lemma runSegments_app a b st :
  runSegments (a ++ b) st = runSegments b (runSegments a st).
Proof. unfold runSegments. apply foldl_app. Qed.

Lemma runSegments_cons seg segs st :
  runSegments (seg :: segs) st = runSegments segs (applySegment seg st).
Proof. reflexivity. Qed.

Lemma wf_taken more st : wf st -> wf (taken more st).
Proof. apply wf_set_hw. Qed.

Lemma laneView_taken id more st : laneView id (taken more st) = laneView id st.
Proof. apply laneView_set_hw_set_serialRx. Qed.

Lemma loops_line_control st line more :
  lineReady st line more ->
  exists st',
    loops (S (length line)) st = Some st'
    /\ control st' = control (applyLine line (taken more st))
    /\ wf st'.
Proof.
  intros (Hwf & Hidx & Hrx & Hline & Hfit).
  destruct (loops_line st line more) as (b & k & Hb & Hrun);
    [by apply wf_buffer | done | done | by apply noLF_Forall | done |].
  eexists. split; [exact Hrun|]. split; [reflexivity|].
  apply wf_set_serialBuffer; [done|].
  by apply wf_set_strtok_save, wf_applyLine, wf_taken.
Qed.

(** * The command protocol *)

Lemma laneView_eq id st a b :
  laneView id st = (a, b) ->
  currentLed (laneOf id st) = a /\ lamps (laneOf id st) (hw st) = b.
Proof. unfold laneView. intros H. by inversion H. Qed.

Lemma lamps_red lane h r y g :
  lamps lane h = (r, y, g) -> level h (redPin lane) = r.
Proof. unfold lamps. by intros [= -> _ _]. Qed.

(** C1.  In every reachable state each lane has at most one of its three
    output lines active, and a call of [setLaneState] on a lane with any
    state character leaves exactly the matching line active for R, Y and
    G and no line active for any other character. *)
Theorem setLaneState_at_most_one_active (st : Sketch) (id : Lane) (c : ascii) :
  reachable st ->
  activeCount (laneOf id st) (hw st) <= 1
  /\ (let lh := setLaneState (laneOf id st) c (hw st) in
      lamps lh.1 lh.2 = lampsFor c
      /\ activeCount lh.1 lh.2 = (if isRYG c then 1 else 0)
      /\ activeCount lh.1 lh.2 <= 1).
Proof.
  intros Hreach. destruct (reachable_inv st Hreach) as [Hwf Hview]. split.
  - destruct (Hview id) as [c0 Hc0].
    apply laneView_eq in Hc0 as [_ Hlamps].
    rewrite (activeCount_lampsFor _ _ c0 Hlamps). destruct (isRYG c0); lia.
  - cbv zeta.
    assert (Hl : lamps (setLaneState (laneOf id st) c (hw st)).1
                   (setLaneState (laneOf id st) c (hw st)).2 = lampsFor c).
    { apply setLaneState_lamps. eapply pinsOf_distinct, wf_pins, Hwf. }
    split; [exact Hl|].
    rewrite (activeCount_lampsFor _ _ c Hl). split; [done|].
    destruct (isRYG c); lia.
Qed.

Lemma setLaneState_at_most_one_active_witness :
  reachable booted
  /\ activeCount (laneOf North booted) (hw booted) <= 1
  /\ (let lh := setLaneState (laneOf North booted) "Z" (hw booted) in
      lamps lh.1 lh.2 = lampsFor "Z"
      /\ activeCount lh.1 lh.2 = (if isRYG "Z" then 1 else 0)
      /\ activeCount lh.1 lh.2 <= 1).
Proof.
  split; [apply reach_setup|].
  apply (setLaneState_at_most_one_active booted North "Z"), reach_setup.
Defined.

(** C2.  When [setup] returns, on whatever hardware it ran, each of the
    four lanes records Red, its red output is active and its yellow and
    green outputs are driven LOW; no byte has been read and the line
    buffer is empty. *)
Theorem setup_all_red (h : Hardware) (id : Lane) :
  let st := setup (power_on h) in
  currentLed (laneOf id st) = "R"
  /\ lamps (laneOf id st) (hw st) = (Some HIGH, Some LOW, Some LOW)
  /\ active (hw st) (redPin (laneOf id st)) = true
  /\ activeCount (laneOf id st) (hw st) = 1
  /\ serialRx (hw st) = serialRx h
  /\ serialBufferIndex st = 0.
Proof.
  cbv zeta. pose proof (laneView_setup id h) as Hview.
  apply laneView_eq in Hview as [Hled Hlamps].
  split; [exact Hled|]. split; [exact Hlamps|].
  split.
  { unfold active. by rewrite (lamps_red _ _ _ _ _ Hlamps). }
  split; [by rewrite (activeCount_lampsFor _ _ "R" Hlamps)|].
  split; [|reflexivity].
  unfold setup. cbn [hw set_hw set_northLane set_eastLane set_southLane
                     set_westLane northLane eastLane southLane westLane].
  repeat match goal with
         | |- context [let '(_, _) := ?x in _] => destruct x eqn:?
         end.
  repeat match goal with
         | H : setLaneState ?l ?c ?h0 = (_, ?h1) |- _ =>
             let E := fresh in
             pose proof (setLaneState_serialRx l c h0) as E;
             rewrite H in E; simpl in E; clear H
         end.
  simpl in *. congruence.
Qed.

(** ** Overflow *)

Lemma control_split a b :
  control a = control b ->
  a = set_serialBuffer (serialBuffer a) (set_strtok_save (strtok_save a) b).
Proof.
  destruct a, b. unfold control. simpl. by intros [= -> -> -> -> -> ->].
Qed.

Lemma applyLine_set_strtok_save k line st :
  applyLine line (set_strtok_save k st) = set_strtok_save k (applyLine line st).
Proof.
  unfold applyLine. rewrite <- runSegments_set_strtok_save. reflexivity.
Qed.

(** [applyLine] neither reads nor writes the buffer and the saved
    pointer. *)
Lemma applyLine_control line a b :
  control a = control b ->
  control (applyLine line a) = control (applyLine line b).
Proof.
  intros H. rewrite (control_split a b H).
  by rewrite applyLine_set_serialBuffer, applyLine_set_strtok_save.
Qed.

(** Sixty-four bytes without a line feed, from an empty buffer: the
    first sixty-three are stored, the sixty-fourth empties the buffer
    and is reported; the lanes and the pins are not touched. *)
Lemma loops_overflow st junk more :
  wf st -> serialBufferIndex st = 0 ->
  serialRx (hw st) = junk ++ more ->
  noLF junk = true -> length junk = SERIAL_BUFFER_SIZE ->
  exists st',
    loops SERIAL_BUFFER_SIZE st = Some st'
    /\ control st' = control (reportOverflow (taken more st))
    /\ wf st'.
Proof.
  intros Hwf Hidx Hrx Hjunk Hlen.
  revert Hrx Hjunk Hlen.
  induction junk as [|x j _] using rev_ind; intros Hrx Hjunk Hlen; [done|].
  rewrite length_app in Hlen. simpl in Hlen. unfold SERIAL_BUFFER_SIZE in Hlen.
  rewrite noLF_app in Hjunk. apply andb_prop in Hjunk as [Hj Hx].
  rewrite <- app_assoc in Hrx. simpl in Hrx.
  replace (loops SERIAL_BUFFER_SIZE st) with (loops (length j + 1) st)
    by (f_equal; unfold SERIAL_BUFFER_SIZE; lia).
  rewrite loops_add, (loops_accumulate j st (x :: more));
    [| by apply wf_buffer | done | by apply noLF_Forall
     | rewrite Hidx; unfold SERIAL_BUFFER_SIZE; lia].
  cbn [loops].
  rewrite (loop_overflow _ x more); cbn [hw set_hw set_serialBufferIndex
    set_serialBuffer serialBufferIndex serialRx set_serialRx];
    [| reflexivity
     | simpl in Hx; destruct (Ascii.eqb_spec x LF); done
     | unfold SERIAL_BUFFER_SIZE; lia].
  eexists. split; [reflexivity|]. split.
  - unfold control, reportOverflow, taken, Serial_println, overflowText.
    cbn. rewrite Hidx. reflexivity.
  - apply wf_set_serialBufferIndex; [unfold SERIAL_BUFFER_SIZE; lia|].
    apply wf_set_hw, wf_set_serialBufferIndex;
      [unfold SERIAL_BUFFER_SIZE; lia|].
    apply wf_set_serialBuffer; [|by apply wf_set_hw].
    rewrite Hidx, take_0. simpl.
    rewrite length_app, length_drop, (wf_buffer _ Hwf).
    unfold SERIAL_BUFFER_SIZE. lia.
Qed.

(** What follows the sixty-fourth byte of an over-long line, up to its
    line feed, is handed to [processCommand] as a line of its own. *)
Lemma loops_overflow_tail st junk tail more :
  wf st -> serialBufferIndex st = 0 ->
  serialRx (hw st) = junk ++ tail ++ LF :: more ->
  noLF junk = true -> length junk = SERIAL_BUFFER_SIZE ->
  noLF tail = true -> length tail < SERIAL_BUFFER_SIZE ->
  exists st',
    loops (SERIAL_BUFFER_SIZE + S (length tail)) st = Some st'
    /\ control st'
       = control (applyLine tail (reportOverflow (taken more st))).
Proof.
  intros Hwf Hidx Hrx Hjunk Hlen Htail Hfit.
  destruct (loops_overflow st junk (tail ++ LF :: more))
    as (st1 & Hrun1 & Hc1 & Hwf1); [done..|].
  rewrite loops_add, Hrun1.
  destruct (loops_line_control st1 tail more) as (st2 & Hrun2 & Hc2 & _).
  { split; [done|]. split.
    - by rewrite (control_serialBufferIndex _ _ Hc1).
    - split; [|by split]. by rewrite (control_hw _ _ Hc1). }
  exists st2. split; [exact Hrun2|]. rewrite Hc2.
  apply applyLine_control.
  unfold control in *. unfold taken, reportOverflow in *. simpl in *.
  injection Hc1 as -> -> -> -> -> ->. reflexivity.
Qed.

(** C3.  A line longer than the buffer is to be dropped whole, no byte
    of it reaching the parser, and the sketch reports it as ignored.  In
    the sketch the sixty-fourth byte of such a line empties the buffer
    and is reported, and the bytes that follow it are stored as the
    start of a new line: after the 67 bytes of [overlong] and their line
    feed, received by the sketch just out of [setup], the parser has
    been handed [N:G] and lane North has gone from red to green. *)
Theorem overlong_line_tail_is_parsed :
  length overlong = 67
  /\ laneView North booted = ("R", lampsFor "R")
  /\ (fun st => (laneView North st, serialBufferIndex st, serialRx (hw st),
                 drop (length (serialTx (hw booted))) (serialTx (hw st))))
       <$> loops (length overlong + 1) (receive (overlong ++ [LF]) booted)
     = Some (("G", lampsFor "G"), 0, [],
             overflowText ++ echoText (lit "N:G")).
Proof. split; [reflexivity|]. split; vm_compute; reflexivity. Qed.

Lemma skipped_decode seg :
  malformed seg || unknownLane seg = true <-> decode seg = None.
Proof.
  unfold malformed, unknownLane, wellFormed, decode, peek.
  destruct seg as [|a [|b [|c [|d r]]]]; simpl; try done.
  destruct (b =? ":")%char; simpl; [|done].
  destruct (laneOfCode a); simpl; done.
Qed.

Lemma applySegment_skipped seg st :
  decode seg = None -> applySegment seg st = reportOnly seg st.
Proof. intros H. by rewrite applySegment_decode, H. Qed.

(** C4, as the sketch has it.  Take a piece of a line between commas
    that is malformed (its length is not 3, or its second character is
    not a colon) or names no lane.  When the piece is not empty it is
    skipped with one diagnostic: all it does is write its report to the
    status channel, and the pieces before and after it are applied as
    usual.  When the piece is empty, [strtok] never hands it to the loop
    body: it is skipped without any diagnostic.  For the line
    [N:G,X:R,E:Y], North ends green, East ends yellow, South and West
    are as before, and what is written is the echo and one diagnostic,
    for [X]. *)
Theorem bad_segment_is_skipped
    (st : Sketch) (line more : list ascii)
    (pre : list (list ascii)) (bad : list ascii) (post : list (list ascii)) :
  lineReady st line more ->
  splitOn "," (cstr_of line) = pre ++ bad :: post ->
  malformed bad || unknownLane bad = true ->
  let before :=
    runSegments (List.filter nonEmpty pre) (echo line (taken more st)) in
  exists st',
    loops (S (length line)) st = Some st'
    /\ (bad <> [] ->
        control st'
        = control (runSegments (List.filter nonEmpty post)
                     (reportOnly bad before))
        /\ diagnostics (segmentReport bad) = 1)
    /\ (bad = [] ->
        control st' = control (runSegments (List.filter nonEmpty post) before))
    /\ (line = lit "N:G,X:R,E:Y" ->
        laneView North st' = ("G", lampsFor "G")
        /\ laneView East st' = ("Y", lampsFor "Y")
        /\ laneView South st' = laneView South st
        /\ laneView West st' = laneView West st
        /\ serialTx (hw st')
           = serialTx (hw st) ++ echoText line ++ unknownLaneText "X"
        /\ diagnostics (echoText line ++ unknownLaneText "X") = 1).
Proof.
  intros Hready Hsplit Hbad before.
  destruct (loops_line_control st line more Hready) as (st' & Hrun & Hc & _).
  destruct Hready as (Hwf & _ & _ & Hline & _).
  apply skipped_decode in Hbad.
  assert (Hsegs : segments line
                  = List.filter nonEmpty pre
                    ++ List.filter nonEmpty (bad :: post)).
  { unfold segments. by rewrite Hsplit, List.filter_app. }
  exists st'. split; [exact Hrun|]. split; [|split].
  - intros Hne.
    assert (Hsegs' : segments line
                     = List.filter nonEmpty pre
                       ++ bad :: List.filter nonEmpty post).
    { rewrite Hsegs. cbn [List.filter]. by destruct bad. }
    split.
    + rewrite Hc. unfold applyLine.
      by rewrite Hsegs', runSegments_app, runSegments_cons,
        applySegment_skipped.
    + pose proof (noLF_segments line Hline) as Hall.
      rewrite Hsegs' in Hall. apply Forall_app in Hall as [_ Hall].
      apply Forall_cons in Hall as [Hnolf _].
      rewrite <- (app_nil_r (segmentReport bad)).
      rewrite diagnostics_segmentReport by done.
      unfold reports. by rewrite Hbad.
  - intros ->. rewrite Hc. unfold applyLine.
    by rewrite Hsegs, runSegments_app.
  - intros ->.
    assert (Hv : forall id,
               laneView id st'
               = match lastFor id (segments (lit "N:G,X:R,E:Y")) with
                 | Some c => (recorded c, lampsFor c)
                 | None => laneView id st
                 end).
    { intros id. rewrite (control_laneView id _ _ Hc).
      rewrite laneView_applyLine by by apply wf_taken.
      by rewrite laneView_taken. }
    split; [apply Hv|]. split; [apply Hv|]. split; [apply Hv|].
    split; [apply Hv|]. split; [|reflexivity].
    rewrite (control_hw _ _ Hc), serialTx_applyLine. reflexivity.
Qed.

Lemma bad_segment_is_skipped_witness :
  let st := receive (lit "N:G,X:R,E:Y" ++ [LF]) booted in
  lineReady st (lit "N:G,X:R,E:Y") []
  /\ splitOn "," (cstr_of (lit "N:G,X:R,E:Y"))
     = [lit "N:G"] ++ lit "X:R" :: [lit "E:Y"]
  /\ malformed (lit "X:R") || unknownLane (lit "X:R") = true
  /\ lit "X:R" <> []
  /\ exists st',
       loops (S (length (lit "N:G,X:R,E:Y"))) st = Some st'
       /\ laneView North st' = ("G", lampsFor "G")
       /\ laneView East st' = ("Y", lampsFor "Y")
       /\ laneView South st' = ("R", lampsFor "R")
       /\ laneView West st' = ("R", lampsFor "R")
       /\ diagnostics (segmentReport (lit "X:R")) = 1.
Proof.
  cbv zeta.
  assert (Hready : lineReady (receive (lit "N:G,X:R,E:Y" ++ [LF]) booted)
                     (lit "N:G,X:R,E:Y") []).
  { split; [apply wf_receive, wf_setup|].
    repeat split; try reflexivity. vm_compute. lia. }
  assert (Hne : lit "X:R" <> []) by discriminate.
  split; [exact Hready|]. split; [reflexivity|]. split; [reflexivity|].
  split; [exact Hne|].
  destruct (bad_segment_is_skipped _ _ _ [lit "N:G"] (lit "X:R") [lit "E:Y"]
              Hready eq_refl eq_refl)
    as (st' & Hrun & Hbad & _ & Hex).
  destruct (Hbad Hne) as [_ Hd].
  destruct (Hex eq_refl) as (HN & HE & HS & HW & _).
  exists st'. split; [exact Hrun|].
  split; [exact HN|]. split; [exact HE|].
  split; [rewrite HS; vm_compute; reflexivity|].
  split; [rewrite HW; vm_compute; reflexivity | exact Hd].
Defined.

(** C4 for every malformed segment does not hold.  In the line
    [N:G,,E:Y] the piece between the two commas is empty, so its length
    is not 3 and it is malformed; it is the only piece of the line that
    is malformed or names no lane.  The sketch, just out of [setup],
    applies [N:G] and [E:Y] and writes the echo, with no diagnostic for
    the empty piece. *)
Lemma empty_segment_is_not_reported :
  let line := lit "N:G,,E:Y" in
  splitOn "," (cstr_of line) = [lit "N:G"; []; lit "E:Y"]
  /\ malformed [] = true
  /\ length (List.filter (fun seg => malformed seg || unknownLane seg)
               (splitOn "," (cstr_of line))) = 1
  /\ (fun st => (laneView North st, laneView East st,
                 drop (length (serialTx (hw booted))) (serialTx (hw st)),
                 diagnostics
                   (drop (length (serialTx (hw booted))) (serialTx (hw st)))))
       <$> loops (S (length line)) (receive (line ++ [LF]) booted)
     = Some (("G", lampsFor "G"), ("Y", lampsFor "Y"), echoText line, 0).
Proof.
  cbv zeta. split; [reflexivity|]. split; [reflexivity|].
  split; vm_compute; reflexivity.
Qed.

(** ** Valid lines *)

Lemma tokenChar_laneCodeOf id : tokenChar (laneCodeOf id) = true.
Proof. by destruct id. Qed.

Lemma segmentOf_token d :
  tokenChar d.2 = true -> Forall (fun c => tokenChar c = true) (segmentOf d).
Proof.
  intros H. unfold segmentOf.
  repeat constructor; [apply tokenChar_laneCodeOf | done].
Qed.

Lemma render_cons d ds :
  ds <> [] -> render (d :: ds) = segmentOf d ++ "," :: render ds.
Proof. destruct d as [id c], ds as [|d' ds]; [done|]. reflexivity. Qed.

(** The segments of a valid line are its directives. *)
Lemma segments_render ds :
  Forall (fun d => tokenChar d.2 = true) ds ->
  segments (render ds) = map segmentOf ds.
Proof.
  induction 1 as [|d ds Hd Hds IH]; [reflexivity|].
  destruct ds as [|d' ds'].
  - destruct d as [id c]. cbn [render map].
    rewrite <- (app_nil_r [laneCodeOf id; ":"; c]).
    apply (segments_last (segmentOf (id, c)) []);
      [done | by apply segmentOf_token | done].
  - rewrite render_cons by done.
    rewrite segments_more, IH; [done | done | by apply segmentOf_token].
Qed.

Lemma runSegments_directives ds : forall st,
  runSegments (map segmentOf ds) st = runDirectives ds st.
Proof.
  induction ds as [|[id c] ds IH]; intros st; [reflexivity|].
  cbn [map]. rewrite runSegments_cons, applySegment_decode.
  change (segmentOf (id, c)) with [laneCodeOf id; ":"; c].
  rewrite decode_directive. apply IH.
Qed.

Lemma runDirectives_app a b st :
  runDirectives (a ++ b) st = runDirectives b (runDirectives a st).
Proof. unfold runDirectives. apply foldl_app. Qed.

Lemma wf_runDirectives ds : forall st, wf st -> wf (runDirectives ds st).
Proof.
  induction ds as [|[id c] ds IH]; intros st Hwf; [done|].
  by apply IH, wf_applyDirective.
Qed.

Lemma recorded_RYG c : isRYG c = true -> recorded c = c.
Proof.
  unfold isRYG, recorded.
  destruct (Ascii.eqb_spec c "R") as [->|?]; [done|].
  destruct (Ascii.eqb_spec c "Y") as [->|?]; [done|].
  destruct (Ascii.eqb_spec c "G") as [->|?]; done.
Qed.

Lemma recorded_other c : isRYG c = false -> recorded c = "O".
Proof.
  unfold isRYG, recorded.
  destruct (c =? "R")%char; [done|].
  destruct (c =? "Y")%char; [done|].
  destruct (c =? "G")%char; done.
Qed.

Lemma lampsFor_other c : isRYG c = false -> lampsFor c = allOff.
Proof.
  unfold isRYG, lampsFor, allOff.
  destruct (c =? "R")%char; [done|].
  destruct (c =? "Y")%char; [done|].
  destruct (c =? "G")%char; done.
Qed.

(** C5.  In a valid line, directives joined by commas, take any
    directive (lane, state) with state R, Y or G.  When it is applied,
    after the directives before it in the line, the lane it names
    records the state and has exactly one active output, the matching
    one; every other lane keeps its record and the levels of its three
    outputs.  The directives after it are then applied to that state. *)
Theorem valid_directive_frame
    (st : Sketch) (line more : list ascii)
    (ds1 : list (Lane * ascii)) (id : Lane) (c : ascii)
    (ds2 : list (Lane * ascii)) :
  lineReady st line more ->
  line = render (ds1 ++ (id, c) :: ds2) ->
  Forall (fun d => tokenChar d.2 = true) (ds1 ++ (id, c) :: ds2) ->
  isRYG c = true ->
  let before := runDirectives ds1 (echo line (taken more st)) in
  let after := applyDirective id c before in
  exists st',
    loops (S (length line)) st = Some st'
    /\ control st' = control (runDirectives ds2 after)
    /\ currentLed (laneOf id after) = c
    /\ lamps (laneOf id after) (hw after) = lampsFor c
    /\ activeCount (laneOf id after) (hw after) = 1
    /\ forall id', id' <> id ->
         laneOf id' after = laneOf id' before
         /\ lamps (laneOf id' after) (hw after)
            = lamps (laneOf id' before) (hw before).
Proof.
  intros Hready -> Hvalid Hc before after.
  destruct (loops_line_control st _ more Hready) as (st' & Hrun & Hctl & _).
  destruct Hready as (Hwf & _).
  assert (Hwfb : wf before).
  { apply wf_runDirectives, wf_set_hw. by apply wf_taken. }
  exists st'. split; [exact Hrun|]. split.
  { rewrite Hctl. unfold applyLine.
    rewrite segments_render, runSegments_directives by done.
    by rewrite runDirectives_app. }
  pose proof (laneView_applyDirective_same id c before Hwfb) as Hsame.
  apply laneView_eq in Hsame as [Hled Hlamps]. subst after.
  split; [by rewrite Hled, recorded_RYG|]. split; [exact Hlamps|].
  split; [by rewrite (activeCount_lampsFor _ _ c Hlamps), Hc|].
  intros id' Hne. split.
  - by apply laneOf_applyDirective_other.
  - pose proof (laneView_applyDirective_other id id' c before Hwfb Hne) as Ho.
    exact (f_equal snd Ho).
Qed.

Lemma valid_directive_frame_witness :
  let st := receive (lit "N:G,E:R,S:R,W:R" ++ [LF]) booted in
  let line := lit "N:G,E:R,S:R,W:R" in
  let before :=
    runDirectives [(North, "G")] (echo line (taken [] st)) in
  let after := applyDirective East "R" before in
  lineReady st line []
  /\ line = render ([(North, "G")] ++ (East, "R") :: [(South, "R"); (West, "R")])
  /\ Forall (fun d => tokenChar d.2 = true)
       ([(North, "G")] ++ (East, "R") :: [(South, "R"); (West, "R")])
  /\ isRYG "R" = true
  /\ exists st',
       loops 16 st = Some st'
       /\ control st' = control (runDirectives [(South, "R"); (West, "R")] after)
       /\ currentLed (laneOf East after) = "R"
       /\ lamps (laneOf East after) (hw after) = lampsFor "R"
       /\ activeCount (laneOf East after) (hw after) = 1
       /\ forall id', id' <> East ->
            laneOf id' after = laneOf id' before
            /\ lamps (laneOf id' after) (hw after)
               = lamps (laneOf id' before) (hw before).
Proof.
  cbv zeta.
  assert (Hready : lineReady (receive (lit "N:G,E:R,S:R,W:R" ++ [LF]) booted)
                     (lit "N:G,E:R,S:R,W:R") []).
  { split; [apply wf_receive, wf_setup|].
    repeat split; try reflexivity. vm_compute. lia. }
  assert (Hvalid : Forall (fun d : Lane * ascii => tokenChar d.2 = true)
                     ([(North, "G")] ++ (East, "R")
                        :: [(South, "R"); (West, "R")])).
  { repeat constructor. }
  split; [exact Hready|]. split; [reflexivity|]. split; [exact Hvalid|].
  split; [reflexivity|].
  exact (valid_directive_frame _ _ _ [(North, "G")] East "R"
           [(South, "R"); (West, "R")] Hready eq_refl Hvalid eq_refl).
Defined.

(** C6.  The segments of a line are applied one after the other, first
    to last, so a lane ends in the state of the last directive that
    names it, and as it was when none does.  For the line [N:R,N:G] lane
    North ends green. *)
Theorem last_directive_wins (st : Sketch) (line more : list ascii) :
  lineReady st line more ->
  exists st',
    loops (S (length line)) st = Some st'
    /\ control st'
       = control (foldl (fun s seg => applySegment seg s)
                    (echo line (taken more st)) (segments line))
    /\ (forall id,
          laneView id st'
          = match lastFor id (segments line) with
            | Some c => (recorded c, lampsFor c)
            | None => laneView id st
            end)
    /\ (line = lit "N:R,N:G" ->
        currentLed (northLane st') = "G"
        /\ lamps (northLane st') (hw st') = lampsFor "G").
Proof.
  intros Hready.
  destruct (loops_line_control st line more Hready) as (st' & Hrun & Hc & _).
  destruct Hready as (Hwf & _).
  assert (Hv : forall id,
             laneView id st'
             = match lastFor id (segments line) with
               | Some c => (recorded c, lampsFor c)
               | None => laneView id st
               end).
  { intros id. rewrite (control_laneView id _ _ Hc).
    rewrite laneView_applyLine by by apply wf_taken.
    by rewrite laneView_taken. }
  exists st'. split; [exact Hrun|]. split; [exact Hc|]. split; [exact Hv|].
  intros ->. specialize (Hv North). by apply laneView_eq in Hv.
Qed.

Lemma last_directive_wins_witness :
  let st := receive (lit "N:R,N:G" ++ [LF]) booted in
  lineReady st (lit "N:R,N:G") []
  /\ exists st',
       loops 8 st = Some st'
       /\ currentLed (northLane st') = "G"
       /\ lamps (northLane st') (hw st') = lampsFor "G"
       /\ laneView East st' = laneView East st.
Proof.
  cbv zeta.
  assert (Hready : lineReady (receive (lit "N:R,N:G" ++ [LF]) booted)
                     (lit "N:R,N:G") []).
  { split; [apply wf_receive, wf_setup|].
    repeat split; try reflexivity. vm_compute. lia. }
  split; [exact Hready|].
  destruct (last_directive_wins _ _ _ Hready) as (st' & Hrun & _ & Hv & Hex).
  destruct (Hex eq_refl) as [Hled Hlamps].
  exists st'. split; [exact Hrun|]. split; [exact Hled|].
  split; [exact Hlamps | exact (Hv East)].
Defined.

(** C7.  A segment of a line with a known lane code and a state
    character other than R, Y and G is not rejected by the parser: the
    character goes to [setLaneState], which drives the three outputs of
    that lane LOW, records Off, and writes one diagnostic.  The other
    lanes are untouched, the segments after it are applied, and [loop]
    goes on returning. *)
Theorem unknown_state_turns_lane_off
    (st : Sketch) (line more : list ascii)
    (pre : list (list ascii)) (id : Lane) (c : ascii)
    (post : list (list ascii)) :
  lineReady st line more ->
  segments line = pre ++ [laneCodeOf id; ":"; c] :: post ->
  isRYG c = false ->
  let before := runSegments pre (echo line (taken more st)) in
  let after := applyDirective id c before in
  exists st',
    loops (S (length line)) st = Some st'
    /\ control st' = control (runSegments post after)
    /\ applySegment [laneCodeOf id; ":"; c] before = after
    /\ laneView id after = ("O", allOff)
    /\ activeCount (laneOf id after) (hw after) = 0
    /\ serialTx (hw after) = serialTx (hw before) ++ unknownStateText c
    /\ diagnostics (unknownStateText c) = 1
    /\ (forall id', id' <> id -> laneView id' after = laneView id' before)
    /\ exists st'', loop st' = Some st''.
Proof.
  intros Hready Hsegs Hc before after.
  destruct (loops_line_control st line more Hready) as (st' & Hrun & Hctl & _).
  destruct Hready as (Hwf & _ & _ & Hline & _).
  assert (Hwfb : wf before).
  { apply wf_runSegments, wf_set_hw. by apply wf_taken. }
  assert (Hseg : applySegment [laneCodeOf id; ":"; c] before = after).
  { by rewrite applySegment_decode, decode_directive. }
  pose proof (laneView_applyDirective_same id c before Hwfb) as Hsame.
  rewrite recorded_other, lampsFor_other in Hsame by done.
  exists st'. split; [exact Hrun|]. split.
  { rewrite Hctl. unfold applyLine.
    rewrite Hsegs, runSegments_app, runSegments_cons. fold before.
    by rewrite Hseg. }
  split; [exact Hseg|]. split; [exact Hsame|]. split.
  { apply laneView_eq in Hsame as [_ Hlamps]. subst after.
    rewrite <- (lampsFor_other c Hc) in Hlamps.
    by rewrite (activeCount_lampsFor _ _ c Hlamps), Hc. }
  split.
  { subst after. rewrite hw_applyDirective, setLaneState_serialTx, Hc.
    reflexivity. }
  split.
  { pose proof (noLF_segments line Hline) as Hall.
    rewrite Hsegs in Hall. apply Forall_app in Hall as [_ Hall].
    apply Forall_cons in Hall as [Hnolf _].
    pose proof (diagnostics_segmentReport [laneCodeOf id; ":"; c] [] Hnolf)
      as Hd.
    rewrite app_nil_r in Hd.
    rewrite (segmentReport_directive _ id c (decode_directive id c)) in Hd.
    unfold reports in Hd. rewrite decode_directive in Hd.
    by rewrite Hc in Hd. }
  split; [|apply loop_total].
  intros id' Hne. by apply laneView_applyDirective_other.
Qed.

Lemma unknown_state_turns_lane_off_witness :
  let st := receive (lit "N:Z" ++ [LF]) booted in
  let before := runSegments [] (echo (lit "N:Z") (taken [] st)) in
  let after := applyDirective North "Z" before in
  lineReady st (lit "N:Z") []
  /\ segments (lit "N:Z") = [] ++ [laneCodeOf North; ":"; "Z"] :: []
  /\ isRYG "Z" = false
  /\ exists st',
       loops 4 st = Some st'
       /\ control st' = control (runSegments [] after)
       /\ applySegment [laneCodeOf North; ":"; "Z"] before = after
       /\ laneView North after = ("O", allOff)
       /\ activeCount (laneOf North after) (hw after) = 0
       /\ serialTx (hw after) = serialTx (hw before) ++ unknownStateText "Z"
       /\ diagnostics (unknownStateText "Z") = 1
       /\ (forall id', id' <> North -> laneView id' after = laneView id' before)
       /\ exists st'', loop st' = Some st''.
Proof.
  cbv zeta.
  assert (Hready : lineReady (receive (lit "N:Z" ++ [LF]) booted)
                     (lit "N:Z") []).
  { split; [apply wf_receive, wf_setup|].
    repeat split; try reflexivity. vm_compute. lia. }
  split; [exact Hready|]. split; [reflexivity|]. split; [reflexivity|].
  exact (unknown_state_turns_lane_off _ _ _ [] North "Z" []
           Hready eq_refl eq_refl).
Defined.

(** ** Repeating a directive *)

Lemma setLaneState_twice_lane lane c h :
  (setLaneState (setLaneState lane c h).1 c (setLaneState lane c h).2).1
  = (setLaneState lane c h).1.
Proof. case_state c; reflexivity. Qed.

Lemma setLaneState_twice_pinLevel lane c h :
  pinLevel (setLaneState (setLaneState lane c h).1 c (setLaneState lane c h).2).2
  = pinLevel (setLaneState lane c h).2.
Proof.
  case_state c; apply map_eq; intros i; rewrite !lookup_insert;
    repeat case_decide; congruence.
Qed.

Lemma repeatTransients_writes lane c h :
  repeatTransients lane c h
  = transients (setLaneState lane c h).1 (pinLevel (setLaneState lane c h).2)
      (laneWrites (setLaneState lane c h).1 c).
Proof.
  unfold repeatTransients. cbv zeta.
  rewrite (setLaneState_pinTrace (setLaneState lane c h).1 c
             (setLaneState lane c h).2).
  by rewrite drop_app_length.
Qed.

(** C8, as the sketch has it.  [setLaneState] is idempotent in the state
    it ends in: called twice in a row with the same state character, it
    leaves the same record, the same pin levels and the same lamps after
    the second call as after the first.  The second call is not free of
    transients: it passes through no lamp state other than the requested
    one and all-off, and for R, Y and G it does pass through all-off,
    since every call first drives the three outputs LOW. *)
Theorem setLaneState_idempotent_end_state
    (lane : LaneLeds) (c : ascii) (h : Hardware) :
  pinsDistinct lane ->
  let lh1 := setLaneState lane c h in
  let lh2 := setLaneState lh1.1 c lh1.2 in
  lh2.1 = lh1.1
  /\ pinLevel lh2.2 = pinLevel lh1.2
  /\ lamps lh2.1 lh2.2 = lamps lh1.1 lh1.2
  /\ lamps lh1.1 lh1.2 = lampsFor c
  /\ Forall (fun t => t = lampsFor c \/ t = allOff) (repeatTransients lane c h)
  /\ (isRYG c = true ->
      In allOff (repeatTransients lane c h) /\ allOff <> lampsFor c).
Proof.
  intros Hd. cbv zeta.
  pose proof (setLaneState_twice_lane lane c h) as Hlane.
  pose proof (setLaneState_twice_pinLevel lane c h) as Hlevel.
  pose proof (setLaneState_lamps lane c h Hd) as Hlamps.
  split; [exact Hlane|]. split; [exact Hlevel|]. split.
  { rewrite Hlane. unfold lamps, level. by rewrite Hlevel. }
  split; [exact Hlamps|].
  rewrite repeatTransients_writes.
  destruct Hd as (Hry & Hrg & Hyg).
  unfold laneWrites, allOff.
  case_state c; cbn [transients app fst snd];
    repeat first [ rewrite lookup_insert_eq
                 | rewrite lookup_insert_ne by done ];
    (split;
     [ repeat (apply List.Forall_cons; [first [by left | by right]|]);
       apply List.Forall_nil
     | first [done | intros _; split; [cbn [In]; auto | done]] ]).
Qed.

Lemma setLaneState_idempotent_end_state_witness :
  let lane := northLane booted in
  let lh1 := setLaneState lane "R" (hw booted) in
  let lh2 := setLaneState lh1.1 "R" lh1.2 in
  pinsDistinct lane
  /\ lh2.1 = lh1.1
  /\ pinLevel lh2.2 = pinLevel lh1.2
  /\ lamps lh2.1 lh2.2 = lamps lh1.1 lh1.2
  /\ lamps lh1.1 lh1.2 = lampsFor "R"
  /\ Forall (fun t => t = lampsFor "R" \/ t = allOff)
       (repeatTransients lane "R" (hw booted))
  /\ (isRYG "R" = true ->
      In allOff (repeatTransients lane "R" (hw booted))
      /\ allOff <> lampsFor "R").
Proof.
  cbv zeta.
  assert (Hd : pinsDistinct (northLane booted)).
  { unfold pinsDistinct. vm_compute. repeat split; discriminate. }
  split; [exact Hd|].
  exact (setLaneState_idempotent_end_state (northLane booted) "R" (hw booted) Hd).
Defined.

(** C8 with no transient does not hold.  Lane North shows red after
    [setup]; when [setLaneState] is called on it with R, and then with R
    again, the lamps of the lane do not stay as they were during the
    second call: its first write turns the red lamp off. *)
Lemma repeated_red_flickers :
  let lane := northLane booted in
  let lh1 := setLaneState lane "R" (hw booted) in
  currentLed lane = "R"
  /\ lamps lh1.1 lh1.2 = lampsFor "R"
  /\ ~ Forall (fun t => t = lamps lh1.1 lh1.2)
         (repeatTransients lane "R" (hw booted)).
Proof.
  cbv zeta. split; [reflexivity|]. split; [vm_compute; reflexivity|].
  intros H. vm_compute in H. inversion H as [|t ts Ht _]. discriminate Ht.
Qed.

(** C9.  A line feed received when the buffer is empty hands the empty
    line to the parser, which finds no segment in it: the line is
    echoed, and that is all.  No lane record changes, no pin is written,
    and the echo is not a diagnostic. *)
Theorem empty_line_is_noop (st : Sketch) (more : list ascii) :
  wf st -> serialBufferIndex st = 0 -> serialRx (hw st) = LF :: more ->
  exists st',
    loop st = Some st'
    /\ segments [] = []
    /\ control st' = control (echo [] (taken more st))
    /\ (forall id, laneOf id st' = laneOf id st)
    /\ pinLevel (hw st') = pinLevel (hw st)
    /\ pinTrace (hw st') = pinTrace (hw st)
    /\ serialTx (hw st')
       = serialTx (hw st) ++ lit "Received command: " ++ [CR; LF]
    /\ diagnostics (lit "Received command: " ++ [CR; LF]) = 0
    /\ serialBufferIndex st' = 0.
Proof.
  intros Hwf Hidx Hrx.
  destruct (loops_line_control st [] more) as (st' & Hrun & Hc & _).
  { split; [done|]. split; [done|]. split; [done|].
    split; [reflexivity | unfold SERIAL_BUFFER_SIZE; simpl; lia]. }
  cbn [length loops] in Hrun.
  destruct (loop st) as [st1|]; [|done]. injection Hrun as ->.
  change (applyLine [] (taken more st)) with (echo [] (taken more st)) in Hc.
  exists st'. split; [reflexivity|]. split; [reflexivity|].
  split; [exact Hc|]. split.
  { intros id. rewrite (control_laneOf id _ _ Hc). by destruct id. }
  rewrite (control_hw _ _ Hc), (control_serialBufferIndex _ _ Hc).
  split; [reflexivity|]. split; [reflexivity|]. split.
  { unfold echo, Serial_println. rewrite Serial_print_print. reflexivity. }
  split; [reflexivity | exact Hidx].
Qed.

Lemma empty_line_is_noop_witness :
  let st := receive [LF] booted in
  wf st /\ serialBufferIndex st = 0 /\ serialRx (hw st) = LF :: []
  /\ exists st',
       loop st = Some st'
       /\ (forall id, laneOf id st' = laneOf id st)
       /\ pinTrace (hw st') = pinTrace (hw st)
       /\ serialTx (hw st')
          = serialTx (hw st) ++ lit "Received command: " ++ [CR; LF]
       /\ diagnostics (lit "Received command: " ++ [CR; LF]) = 0.
Proof.
  cbv zeta.
  assert (Hwf : wf (receive [LF] booted)) by apply wf_receive, wf_setup.
  split; [exact Hwf|]. split; [reflexivity|]. split; [reflexivity|].
  destruct (empty_line_is_noop (receive [LF] booted) [] Hwf eq_refl eq_refl)
    as (st' & Hloop & _ & _ & Hl & _ & Htrace & Htx & Hd & _).
  exists st'. split; [exact Hloop|]. split; [exact Hl|].
  split; [exact Htrace|]. split; [exact Htx | exact Hd].
Defined.

(** C10.  The parser sees the pieces of a line between commas that are
    not empty, and nothing else: a comma at the start or the end of the
    line, or next to another comma, yields no segment, so no diagnostic
    and no change.  The pieces that are not empty are applied in order,
    and the diagnostics of the line are those of these pieces.  The
    line [,,N:G,,E:Y,] sets North to green and East to yellow and is
    echoed without a diagnostic, although an empty segment handed to the
    loop body would be reported as malformed. *)
Theorem empty_segments_are_dropped (st : Sketch) (line more : list ascii) :
  lineReady st line more ->
  let pieces := List.filter nonEmpty (splitOn "," (cstr_of line)) in
  exists st',
    loops (S (length line)) st = Some st'
    /\ control st' = control (runSegments pieces (echo line (taken more st)))
    /\ ~ In [] pieces
    /\ serialTx (hw st')
       = serialTx (hw st) ++ echoText line ++ concat (map segmentReport pieces)
    /\ diagnostics (echoText line ++ concat (map segmentReport pieces))
       = length (List.filter reports pieces)
    /\ diagnostics (segmentReport []) = 1
    /\ (line = lit ",,N:G,,E:Y," ->
        splitOn "," (cstr_of line)
        = [[]; []; lit "N:G"; []; lit "E:Y"; []]
        /\ laneView North st' = ("G", lampsFor "G")
        /\ laneView East st' = ("Y", lampsFor "Y")
        /\ laneView South st' = laneView South st
        /\ laneView West st' = laneView West st
        /\ serialTx (hw st') = serialTx (hw st) ++ echoText line
        /\ diagnostics (echoText line) = 0).
Proof.
  intros Hready pieces.
  destruct (loops_line_control st line more Hready) as (st' & Hrun & Hc & _).
  destruct Hready as (Hwf & _ & _ & Hline & _).
  assert (Htx : serialTx (hw st')
                = serialTx (hw st) ++ echoText line
                  ++ concat (map segmentReport pieces)).
  { rewrite (control_hw _ _ Hc), serialTx_applyLine. reflexivity. }
  exists st'. split; [exact Hrun|]. split; [exact Hc|]. split.
  { intros Hin. by apply (segments_nonEmpty line []) in Hin. }
  split; [exact Htx|]. split.
  { rewrite diagnostics_echoText by done.
    apply diagnostics_reports, noLF_segments, Hline. }
  split; [reflexivity|].
  intros ->.
  assert (Hv : forall id,
             laneView id st'
             = match lastFor id (segments (lit ",,N:G,,E:Y,")) with
               | Some c => (recorded c, lampsFor c)
               | None => laneView id st
               end).
  { intros id. rewrite (control_laneView id _ _ Hc).
    rewrite laneView_applyLine by by apply wf_taken.
    by rewrite laneView_taken. }
  split; [reflexivity|].
  split; [apply Hv|]. split; [apply Hv|]. split; [apply Hv|].
  split; [apply Hv|]. split; [|reflexivity].
  rewrite Htx. by rewrite app_nil_r.
Qed.

Lemma empty_segments_are_dropped_witness :
  let st := receive (lit ",,N:G,,E:Y," ++ [LF]) booted in
  lineReady st (lit ",,N:G,,E:Y,") []
  /\ exists st',
       loops (S (length (lit ",,N:G,,E:Y,"))) st = Some st'
       /\ laneView North st' = ("G", lampsFor "G")
       /\ laneView East st' = ("Y", lampsFor "Y")
       /\ serialTx (hw st')
          = serialTx (hw st) ++ echoText (lit ",,N:G,,E:Y,")
       /\ diagnostics (echoText (lit ",,N:G,,E:Y,")) = 0.
Proof.
  cbv zeta.
  assert (Hready : lineReady (receive (lit ",,N:G,,E:Y," ++ [LF]) booted)
                     (lit ",,N:G,,E:Y,") []).
  { split; [apply wf_receive, wf_setup|].
    repeat split; try reflexivity. vm_compute. lia. }
  split; [exact Hready|].
  destruct (empty_segments_are_dropped _ _ _ Hready)
    as (st' & Hrun & _ & _ & _ & _ & _ & Hex).
  destruct (Hex eq_refl) as (_ & HN & HE & _ & _ & Htx & Hd).
  exists st'. split; [exact Hrun|]. split; [exact HN|].
  split; [exact HE|]. split; [exact Htx | exact Hd].
Defined.

(** ** The model's own bookkeeping *)

(** The latches are what the recorded writes make of them. *)
Lemma setLaneState_replay lane c h :
  pinLevel (setLaneState lane c h).2
  = replay (pinLevel h) (laneWrites lane c).
Proof. unfold laneWrites. case_state c; reflexivity. Qed.

(** The buffer [loop] hands to [processCommand] holds its terminator
    inside its 64 bytes, so no read of [strtok], [strlen] or the loop
    body goes past the array. *)
Lemma line_terminated st :
  wf st ->
  <[serialBufferIndex st := NUL]> (serialBuffer st) !! serialBufferIndex st
  = Some NUL.
Proof.
  intros Hwf. apply list_lookup_insert_eq.
  rewrite (wf_buffer _ Hwf). by apply wf_index.
Qed.

(** The index stays inside the buffer, and the buffer keeps its size. *)
Lemma reachable_index st :
  reachable st ->
  serialBufferIndex st < SERIAL_BUFFER_SIZE
  /\ length (serialBuffer st) = SERIAL_BUFFER_SIZE.
Proof.
  intros H. apply reachable_wf in H. split; [apply wf_index | apply wf_buffer]; done.
Qed.

(** * More of the sketch *)

(** ** The serial input *)

Lemma setLaneState_set_serialRx lane c rx h :
  setLaneState lane c (set_serialRx rx h)
  = ((setLaneState lane c h).1, set_serialRx rx (setLaneState lane c h).2).
Proof. case_state c; reflexivity. Qed.

Lemma taken_eta st : taken (serialRx (hw st)) st = st.
Proof. by destruct st as [? ? ? ? ? ? ? []]. Qed.

Lemma taken_taken r r' st : taken r (taken r' st) = taken r st.
Proof. reflexivity. Qed.

Lemma processPart_taken r part st :
  processPart part (taken r st) = taken r (processPart part st).
Proof.
  unfold processPart, taken.
  cbn [serialBuffer set_hw hw northLane eastLane southLane westLane].
  rewrite !setLaneState_set_serialRx.
  repeat match goal with
         | |- context [if ?x then _ else _] => destruct x
         end;
    try destruct (setLaneState _ _ _); reflexivity.
Qed.

Lemma strtok_taken r s st :
  strtok s "," (taken r st)
  = ((strtok s "," st).1, taken r (strtok s "," st).2).
Proof.
  unfold strtok, taken.
  cbn [serialBuffer set_hw hw strtok_save].
  repeat match goal with
         | |- context [if ?x then _ else _] => destruct x
         end; reflexivity.
Qed.

Lemma whileParts_taken r fuel : forall part st,
  whileParts fuel part (taken r st) = taken r <$> whileParts fuel part st.
Proof.
  induction fuel as [|fuel IH]; intros [p|] st; try reflexivity.
  cbn [whileParts]. rewrite processPart_taken, strtok_taken.
  destruct (strtok None "," (processPart p st)) as [part' st']. apply IH.
Qed.

Lemma processCommand_taken r command st :
  processCommand command (taken r st) = taken r <$> processCommand command st.
Proof.
  unfold processCommand.
  change (set_hw _ (taken r st))
    with (taken r (set_hw (Serial_println (cstr (serialBuffer st) command)
                             (Serial_print (lit "Received command: ") (hw st)))
                     st)).
  rewrite strtok_taken.
  destruct (strtok (Some command) "," _) as [part st']. apply whileParts_taken.
Qed.

(** [loop] looks at the first pending byte only. *)
Lemma loop_first_byte st c r :
  serialRx (hw st) = c :: r ->
  loop st = taken r <$> loop (taken [c] st).
Proof.
  intros Hrx. unfold loop. rewrite Hrx.
  cbn [taken hw set_hw serialRx set_serialRx serialBufferIndex serialBuffer].
  destruct (c =? LF)%char.
  - set (s0 := set_serialBuffer
                 (<[serialBufferIndex st:=NUL]> (serialBuffer st))
                 (taken [] st)).
    match goal with
    | |- match processCommand 0 ?a with _ => _ end
         = taken r <$> match processCommand 0 ?b with _ => _ end =>
        change a with (taken r s0); change b with s0
    end.
    rewrite processCommand_taken.
    destruct (processCommand 0 s0); reflexivity.
  - destruct (_ <? _); reflexivity.
Qed.

Lemma loop_consumes st st' :
  loop st = Some st' -> serialRx (hw st') = tail (serialRx (hw st)).
Proof.
  unfold loop. destruct (serialRx (hw st)) as [|c r] eqn:Hrx;
    [by intros [= <-]|].
  destruct (c =? LF)%char.
  - match goal with
    | |- context [processCommand 0 ?s] =>
        destruct (processCommand_applyLine s) as (b & k & _ & ->)
    end.
    intros [= <-].
    cbn [hw set_serialBufferIndex set_serialBuffer set_strtok_save].
    by rewrite serialRx_applyLine.
  - destruct (_ <? _); by intros [= <-].
Qed.

Lemma loops_consumes n : forall st,
  exists st',
    loops n st = Some st' /\ serialRx (hw st') = drop n (serialRx (hw st)).
Proof.
  induction n as [|n IH]; intros st; [by exists st|].
  destruct (loop_total st) as [st1 Hst1].
  destruct (IH st1) as (st' & Hrun & Hrx).
  exists st'. cbn [loops]. rewrite Hst1. split; [exact Hrun|].
  rewrite Hrx, (loop_consumes _ _ Hst1).
  destruct (serialRx (hw st)); simpl; [by rewrite drop_nil | done].
Qed.

Lemma loops_idle n : forall st, serialRx (hw st) = [] -> loops n st = Some st.
Proof.
  induction n as [|n IH]; intros st Hrx; [done|].
  cbn [loops]. rewrite (loop_idle st Hrx). by apply IH.
Qed.

(** The first bytes of the input are processed the same whatever
    follows them. *)
Lemma loops_prefix a : forall st b,
  serialRx (hw st) = a ++ b ->
  loops (length a) st = taken b <$> loops (length a) (taken a st).
Proof.
  induction a as [|c a IH]; intros st b Hrx.
  - cbn [length loops fmap option_fmap option_map app] in *.
    by rewrite taken_taken, <- Hrx, taken_eta.
  - cbn [length loops].
    rewrite (loop_first_byte st c (a ++ b)) by done.
    rewrite (loop_first_byte (taken (c :: a) st) c a) by reflexivity.
    rewrite taken_taken.
    destruct (loop_total (taken [c] st)) as [s1 Hs1]. rewrite Hs1.
    cbn [fmap option_fmap option_map].
    rewrite (IH (taken (a ++ b) s1) b) by reflexivity.
    rewrite (IH (taken a s1) []) by (simpl; by rewrite app_nil_r).
    rewrite !taken_taken.
    destruct (loops (length a) (taken a s1)); reflexivity.
Qed.

Lemma receive_idle bs st : serialRx (hw st) = [] -> receive bs st = taken bs st.
Proof. intros H. unfold receive, taken. by rewrite H. Qed.

Lemma applyLine_taken r line st :
  applyLine line (taken r st) = taken r (applyLine line st).
Proof.
  unfold applyLine, runSegments.
  assert (Hseg : forall seg s,
             applySegment seg (taken r s) = taken r (applySegment seg s)).
  { intros seg s. rewrite !applySegment_decode.
    destruct (decode seg) as [[id c]|]; [|reflexivity].
    unfold applyDirective, taken. cbn [hw set_hw].
    replace (laneOf id (set_hw (set_serialRx r (hw s)) s)) with (laneOf id s)
      by by destruct id.
    rewrite setLaneState_set_serialRx.
    destruct (setLaneState (laneOf id s) c (hw s)) as [l h].
    by destruct id. }
  change (echo line (taken r st)) with (taken r (echo line st)).
  generalize (echo line st). intros s.
  revert s. induction (segments line) as [|seg segs IH]; intros s; [done|].
  cbn [foldl]. by rewrite Hseg, IH.
Qed.

Lemma cstr_of_insert_NUL buf i :
  i < length buf -> cstr_of (<[i:=NUL]> buf) = cstr_of (take i buf).
Proof.
  intros Hi. destruct (lookup_lt_is_Some_2 buf i Hi) as [x Hx].
  rewrite (insert_take_drop buf i NUL Hi). apply cstr_of_app_NUL.
Qed.

(** One call of [loop] with a byte pending is one [feedByte]. *)
Lemma loop_feedByte st c r :
  wf st -> serialRx (hw st) = c :: r ->
  exists st1,
    loop st = Some st1
    /\ wf st1
    /\ accumulated st1 = (feedByte (accumulated st, taken r st) c).1
    /\ control st1 = control (feedByte (accumulated st, taken r st) c).2.
Proof.
  intros Hwf Hrx.
  pose proof (wf_buffer _ Hwf) as Hbuf. pose proof (wf_index _ Hwf) as Hidx.
  assert (Hacc : length (accumulated st) = serialBufferIndex st).
  { unfold accumulated. rewrite length_take. lia. }
  destruct (loop_total st) as [st1 Hst1].
  exists st1. split; [exact Hst1|].
  split; [by apply (loop_step st st1)|].
  unfold feedByte. rewrite Hacc.
  destruct (Ascii.eqb_spec c LF) as [->|Hc].
  - rewrite (loop_newline st r Hrx) in Hst1.
    match type of Hst1 with
    | context [processCommand 0 ?s] =>
        destruct (processCommand_applyLine s) as (b & k & _ & Hp);
        rewrite Hp in Hst1
    end.
    injection Hst1 as <-. split; [reflexivity|].
    cbn [serialBuffer set_serialBuffer snd].
    rewrite (applyLine_cstr_of _ (accumulated st))
      by (apply cstr_of_insert_NUL; lia).
    by rewrite applyLine_set_serialBuffer.
  - destruct (Nat.ltb_spec (serialBufferIndex st) (SERIAL_BUFFER_SIZE - 1)).
    + rewrite (loop_append st c r) in Hst1 by done.
      injection Hst1 as <-. split; [|reflexivity].
      unfold accumulated.
      cbn [serialBuffer serialBufferIndex set_serialBufferIndex
           set_serialBuffer set_hw fst].
      rewrite (take_S_r _ _ c) by (apply list_lookup_insert_eq; lia).
      by rewrite take_insert_ge by lia.
    + rewrite (loop_overflow st c r) in Hst1 by done.
      injection Hst1 as <-. split; reflexivity.
Qed.

Lemma feedByte_control acc a b c :
  control a = control b ->
  (feedByte (acc, a) c).1 = (feedByte (acc, b) c).1
  /\ control (feedByte (acc, a) c).2 = control (feedByte (acc, b) c).2.
Proof.
  intros H. unfold feedByte.
  destruct (c =? LF)%char; [|destruct (_ <? _)]; (split; [reflexivity|]).
  - pose proof (applyLine_control acc a b H) as Ha.
    unfold control in *. cbn. by injection Ha as -> -> -> -> _ ->.
  - unfold control in *. cbn. by injection H as -> -> -> -> _ ->.
  - unfold control, reportOverflow in *. cbn.
    by injection H as -> -> -> -> _ ->.
Qed.

Lemma feed_control bs : forall acc a b,
  control a = control b ->
  (feed bs (acc, a)).1 = (feed bs (acc, b)).1
  /\ control (feed bs (acc, a)).2 = control (feed bs (acc, b)).2.
Proof.
  induction bs as [|c bs IH]; intros acc a b H; [by split|].
  unfold feed. cbn [foldl].
  destruct (feedByte_control acc a b c H) as [H1 H2].
  destruct (feedByte (acc, a) c) as [acc1 a1], (feedByte (acc, b) c) as [acc2 b1].
  simpl in H1, H2. subst acc2. by apply IH.
Qed.

Lemma feedByte_taken r acc st c :
  feedByte (acc, taken r st) c
  = ((feedByte (acc, st) c).1, taken r (feedByte (acc, st) c).2).
Proof.
  unfold feedByte.
  destruct (c =? LF)%char; [|destruct (_ <? _)]; try reflexivity.
  by rewrite applyLine_taken.
Qed.

Lemma control_taken r a b :
  control a = control b -> control (taken r a) = control (taken r b).
Proof.
  unfold control, taken. cbn. by intros [= -> -> -> -> -> ->].
Qed.

Lemma feed_cons c bs p : feed (c :: bs) p = feed bs (feedByte p c).
Proof. reflexivity. Qed.

Lemma loops_feed_control bs : forall st more,
  wf st -> serialRx (hw st) = bs ++ more ->
  exists st',
    loops (length bs) st = Some st'
    /\ wf st'
    /\ accumulated st' = (feed bs (accumulated st, taken more st)).1
    /\ control st' = control (feed bs (accumulated st, taken more st)).2.
Proof.
  induction bs as [|c bs IH]; intros st more Hwf Hrx.
  - exists st. split; [reflexivity|]. split; [done|]. split; [reflexivity|].
    simpl in Hrx. cbn [feed foldl snd]. by rewrite <- Hrx, taken_eta.
  - destruct (loop_feedByte st c (bs ++ more) Hwf Hrx)
      as (st1 & Hst1 & Hwf1 & Hacc1 & Hc1).
    assert (Hrx1 : serialRx (hw st1) = bs ++ more).
    { by rewrite (loop_consumes _ _ Hst1), Hrx. }
    destruct (IH st1 more Hwf1 Hrx1) as (st' & Hrun & Hwf' & Hacc' & Hc').
    exists st'. cbn [length loops]. rewrite Hst1.
    split; [exact Hrun|]. split; [exact Hwf'|].
    rewrite feedByte_taken in Hacc1, Hc1. cbn [fst snd] in Hacc1, Hc1.
    apply (control_taken more) in Hc1. rewrite taken_taken in Hc1.
    destruct (feed_control bs (accumulated st1) _ _ Hc1) as [Hf1 Hf2].
    rewrite feed_cons, feedByte_taken, <- Hacc1.
    split; [by rewrite Hacc', Hf1 | by rewrite Hc', Hf2].
Qed.

(** X1.  Whatever bytes arrive, [loop] deals with them as [feed] does:
    after as many calls as there are bytes, the sketch has returned from
    every call, the bytes accumulated in the buffer are those [feed]
    holds, and the lanes, the buffer index and the hardware are as
    [feed] leaves them.  [feed] keeps the accumulated bytes as a list,
    hands them to the parser at a line feed, and empties them with an
    overflow report at the sixty-fourth byte. *)
Theorem loops_feed (st : Sketch) (bs more : list ascii) :
  wf st -> serialRx (hw st) = bs ++ more ->
  exists st',
    loops (length bs) st = Some st'
    /\ wf st'
    /\ accumulated st' = (feed bs (accumulated st, taken more st)).1
    /\ control st' = control (feed bs (accumulated st, taken more st)).2.
Proof. apply loops_feed_control. Qed.

Lemma loops_feed_witness :
  let st := receive (lit "N:G,E:Y" ++ [LF] ++ lit "S:") booted in
  wf st
  /\ serialRx (hw st) = (lit "N:G,E:Y" ++ [LF] ++ lit "S:") ++ []
  /\ exists st',
       loops 10 st = Some st'
       /\ wf st'
       /\ accumulated st' = lit "S:"
       /\ laneView North st' = ("G", lampsFor "G")
       /\ laneView East st' = ("Y", lampsFor "Y").
Proof.
  cbv zeta.
  assert (Hwf : wf (receive (lit "N:G,E:Y" ++ [LF] ++ lit "S:") booted))
    by apply wf_receive, wf_setup.
  split; [exact Hwf|]. split; [reflexivity|].
  destruct (loops_feed _ (lit "N:G,E:Y" ++ [LF] ++ lit "S:") [] Hwf eq_refl)
    as (st' & Hrun & Hwf' & Hacc & Hc).
  exists st'. split; [exact Hrun|]. split; [exact Hwf'|].
  split; [rewrite Hacc; vm_compute; reflexivity|].
  rewrite !(control_laneView _ _ _ Hc). split; vm_compute; reflexivity.
Defined.

(** X2.  [loop] returns from every call, and after [n] calls it has
    read the first [n] pending bytes, no more, and left the others
    pending in the order they came. *)
Theorem loops_reads_in_order (n : nat) (st : Sketch) :
  exists st',
    loops n st = Some st' /\ serialRx (hw st') = drop n (serialRx (hw st)).
Proof. apply loops_consumes. Qed.

(** X3.  How the bytes are spread over time does not matter.  When the
    bytes [a] arrive at an idle sketch and [loop] is called at least
    once per byte, and then the bytes [b] arrive and [loop] is called at
    least once per byte, the sketch ends in the state it reaches when
    [a] and [b] arrive together. *)
Theorem arrival_in_bursts (st : Sketch) (a b : list ascii) (k1 k2 : nat) :
  serialRx (hw st) = [] ->
  loops (length a + k1) (receive a st)
    ≫= (fun s => loops (length b + k2) (receive b s))
  = loops (length a + length b) (receive (a ++ b) st).
Proof.
  intros Hrx. rewrite !receive_idle by done.
  destruct (loops_consumes (length a) (taken a st)) as (s1 & Hs1 & Hrx1).
  cbn [taken hw set_hw serialRx set_serialRx] in Hrx1.
  rewrite drop_all in Hrx1.
  rewrite loops_add, Hs1, (loops_idle k1 s1 Hrx1). cbn [mbind option_bind].
  rewrite (receive_idle b s1 Hrx1).
  destruct (loops_consumes (length b) (taken b s1)) as (s2 & Hs2 & Hrx2).
  cbn [taken hw set_hw serialRx set_serialRx] in Hrx2.
  rewrite drop_all in Hrx2.
  rewrite loops_add, Hs2, (loops_idle k2 s2 Hrx2).
  rewrite loops_add, (loops_prefix a (taken (a ++ b) st) b) by reflexivity.
  rewrite taken_taken, Hs1. cbn [fmap option_fmap option_map].
  by rewrite Hs2.
Qed.

Lemma arrival_in_bursts_witness :
  serialRx (hw booted) = []
  /\ loops (length (lit "N:") + 3) (receive (lit "N:") booted)
       ≫= (fun s => loops (length (lit "G" ++ [LF]) + 0)
                      (receive (lit "G" ++ [LF]) s))
     = loops (length (lit "N:") + length (lit "G" ++ [LF]))
         (receive (lit "N:" ++ lit "G" ++ [LF]) booted).
Proof.
  split; [reflexivity|].
  exact (arrival_in_bursts booted (lit "N:") (lit "G" ++ [LF]) 3 0 eq_refl).
Defined.

(** X4.  The bytes of a line that has not ended yet are stored and
    nothing else happens: as long as they fit, bytes other than the line
    feed are added to the accumulated bytes, and no lane record, pin or
    byte of the status channel changes. *)
Theorem partial_line_is_silent (st : Sketch) (bs more : list ascii) :
  wf st -> serialRx (hw st) = bs ++ more -> noLF bs = true ->
  serialBufferIndex st + length bs < SERIAL_BUFFER_SIZE ->
  exists st',
    loops (length bs) st = Some st'
    /\ accumulated st' = accumulated st ++ bs
    /\ serialBufferIndex st' = serialBufferIndex st + length bs
    /\ (forall id, laneOf id st' = laneOf id st)
    /\ pinLevel (hw st') = pinLevel (hw st)
    /\ pinTrace (hw st') = pinTrace (hw st)
    /\ serialTx (hw st') = serialTx (hw st)
    /\ serialRx (hw st') = more.
Proof.
  intros Hwf Hrx Hbs Hfit.
  pose proof (wf_buffer _ Hwf) as Hbuf.
  eexists. split.
  { apply loops_accumulate; [done | done | by apply noLF_Forall | done]. }
  split.
  { unfold accumulated.
    cbn [serialBuffer serialBufferIndex set_serialBufferIndex set_serialBuffer].
    rewrite app_assoc. apply take_app_length'.
    rewrite length_app, length_take. lia. }
  split; [reflexivity|]. split; [by intros []|].
  repeat split.
Qed.

Lemma partial_line_is_silent_witness :
  let st := receive (lit "N:G,E") booted in
  wf st /\ serialRx (hw st) = lit "N:G,E" ++ []
  /\ noLF (lit "N:G,E") = true
  /\ serialBufferIndex st + length (lit "N:G,E") < SERIAL_BUFFER_SIZE
  /\ exists st',
       loops (length (lit "N:G,E")) st = Some st'
       /\ accumulated st' = accumulated st ++ lit "N:G,E"
       /\ serialBufferIndex st' = serialBufferIndex st + length (lit "N:G,E")
       /\ (forall id, laneOf id st' = laneOf id st)
       /\ pinLevel (hw st') = pinLevel (hw st)
       /\ pinTrace (hw st') = pinTrace (hw st)
       /\ serialTx (hw st') = serialTx (hw st)
       /\ serialRx (hw st') = [].
Proof.
  cbv zeta.
  assert (Hwf : wf (receive (lit "N:G,E") booted)) by apply wf_receive, wf_setup.
  assert (Hfit : serialBufferIndex (receive (lit "N:G,E") booted)
                 + length (lit "N:G,E") < SERIAL_BUFFER_SIZE)
    by (vm_compute; lia).
  split; [exact Hwf|]. split; [reflexivity|]. split; [reflexivity|].
  split; [exact Hfit|].
  exact (partial_line_is_silent _ (lit "N:G,E") [] Hwf eq_refl eq_refl Hfit).
Defined.

Lemma noLF_feedByte acc st c :
  noLF acc = true -> noLF (feedByte (acc, st) c).1 = true.
Proof.
  intros H. unfold feedByte.
  destruct (c =? LF)%char eqn:E; [reflexivity|].
  destruct (_ <? _); [|reflexivity].
  cbn [fst]. rewrite noLF_app, H. simpl. by rewrite E.
Qed.

(** X5.  In every reachable state the index is inside the 64-byte
    buffer, so the stores of [loop] at the index are inside it, and no
    line feed is among the accumulated bytes. *)
Theorem buffer_bounds (st : Sketch) :
  reachable st ->
  length (serialBuffer st) = SERIAL_BUFFER_SIZE
  /\ serialBufferIndex st <= SERIAL_BUFFER_SIZE - 1
  /\ noLF (accumulated st) = true.
Proof.
  intros Hreach.
  pose proof (reachable_wf st Hreach) as [_ Hbuf Hidx].
  split; [exact Hbuf|]. split; [lia|].
  clear Hbuf Hidx.
  induction Hreach as [levels | st bs _ IH | st st' Hreach IH Hloop].
  - reflexivity.
  - exact IH.
  - destruct (serialRx (hw st)) as [|c r] eqn:Hrx.
    + rewrite (loop_idle st Hrx) in Hloop. by injection Hloop as <-.
    + destruct (loop_feedByte st c r (reachable_wf st Hreach) Hrx)
        as (st1 & Hst1 & _ & Hacc & _).
      rewrite Hloop in Hst1. injection Hst1 as <-.
      rewrite Hacc. by apply noLF_feedByte.
Qed.

Lemma loops_reachable n : forall st st',
  reachable st -> loops n st = Some st' -> reachable st'.
Proof.
  induction n as [|n IH]; intros st st' Hreach Hrun.
  - by injection Hrun as <-.
  - cbn [loops] in Hrun. destruct (loop st) as [st1|] eqn:Hst1; [|done].
    apply (IH st1); [|done]. by apply (reach_loop st).
Qed.

Lemma buffer_bounds_witness :
  exists st',
    loops 3 (receive (lit "N:G") booted) = Some st'
    /\ reachable st'
    /\ length (serialBuffer st') = SERIAL_BUFFER_SIZE
    /\ serialBufferIndex st' <= SERIAL_BUFFER_SIZE - 1
    /\ noLF (accumulated st') = true.
Proof.
  destruct (loops_total 3 (receive (lit "N:G") booted)) as [st' Hrun].
  assert (Hreach : reachable st').
  { apply (loops_reachable 3 _ _ (reach_receive _ _ (reach_setup ∅)) Hrun). }
  exists st'. split; [exact Hrun|]. split; [exact Hreach|].
  exact (buffer_bounds st' Hreach).
Defined.

(** ** Lines that do not fit *)

Lemma reportOverflow_control a b :
  control a = control b -> control (reportOverflow a) = control (reportOverflow b).
Proof.
  unfold control, reportOverflow. cbn. by intros [= -> -> -> -> -> ->].
Qed.

Lemma iter_reportOverflow_control q a b :
  control a = control b ->
  control (Nat.iter q reportOverflow a) = control (Nat.iter q reportOverflow b).
Proof.
  intros H. induction q as [|q IH]; [done|].
  cbn [Nat.iter]. by apply reportOverflow_control.
Qed.

Lemma serialTx_reportOverflow st :
  serialTx (hw (reportOverflow st)) = serialTx (hw st) ++ overflowText.
Proof. reflexivity. Qed.

Lemma concat_replicate_S {A} q (x : list A) :
  concat (replicate (S q) x) = concat (replicate q x) ++ x.
Proof.
  induction q as [|q IH]; simpl in *; [apply app_nil_r|].
  rewrite IH at 1. by rewrite app_assoc.
Qed.

Lemma serialTx_iter_reportOverflow q st :
  serialTx (hw (Nat.iter q reportOverflow st))
  = serialTx (hw st) ++ concat (replicate q overflowText).
Proof.
  induction q as [|q IH]; [by rewrite app_nil_r|].
  rewrite Nat.iter_succ, serialTx_reportOverflow, IH, concat_replicate_S.
  by rewrite app_assoc.
Qed.

Lemma lineReady_intro st line more :
  wf st -> serialBufferIndex st = 0 ->
  serialRx (hw st) = line ++ LF :: more -> noLF line = true ->
  length line < SERIAL_BUFFER_SIZE -> lineReady st line more.
Proof. unfold lineReady. auto. Qed.

Lemma loops_long_line n : forall st line more,
  length line < SERIAL_BUFFER_SIZE * S n ->
  wf st -> serialBufferIndex st = 0 ->
  serialRx (hw st) = line ++ LF :: more -> noLF line = true ->
  exists st',
    loops (S (length line)) st = Some st'
    /\ control st'
       = control
           (applyLine
              (drop (length line / SERIAL_BUFFER_SIZE * SERIAL_BUFFER_SIZE) line)
              (Nat.iter (length line / SERIAL_BUFFER_SIZE) reportOverflow
                 (taken more st))).
Proof.
  induction n as [|n IH]; intros st line more Hn Hwf Hidx Hrx Hline.
  - destruct (loops_line_control st line more) as (st' & Hrun & Hc & _).
    { apply lineReady_intro; [done..|lia]. }
    exists st'. split; [exact Hrun|].
    rewrite Nat.div_small by lia. by rewrite Hc.
  - destruct (Nat.lt_ge_cases (length line) SERIAL_BUFFER_SIZE) as [Hlt|Hge].
    { destruct (loops_line_control st line more) as (st' & Hrun & Hc & _).
      { by apply lineReady_intro. }
      exists st'. split; [exact Hrun|].
      rewrite Nat.div_small by lia. by rewrite Hc. }
    set (junk := take SERIAL_BUFFER_SIZE line).
    set (rest := drop SERIAL_BUFFER_SIZE line).
    assert (Hsplit : line = junk ++ rest) by (unfold junk, rest; by rewrite take_drop).
    assert (Hjlen : length junk = SERIAL_BUFFER_SIZE)
      by (unfold junk; rewrite length_take; lia).
    assert (Hrlen : length line = SERIAL_BUFFER_SIZE + length rest)
      by (rewrite Hsplit at 1; rewrite length_app; lia).
    rewrite Hsplit, noLF_app in Hline. apply andb_prop in Hline as [Hj Hr].
    destruct (loops_overflow st junk (rest ++ LF :: more))
      as (st1 & Hrun1 & Hc1 & Hwf1); [done | done | | done | done |].
    { by rewrite Hrx, Hsplit at 1; rewrite <- app_assoc. }
    destruct (IH st1 rest more) as (st' & Hrun2 & Hc2).
    { unfold SERIAL_BUFFER_SIZE in *. lia. }
    { done. }
    { by rewrite (control_serialBufferIndex _ _ Hc1). }
    { by rewrite (control_hw _ _ Hc1). }
    { done. }
    exists st'. split.
    { replace (S (length line)) with (SERIAL_BUFFER_SIZE + S (length rest)) by lia.
      by rewrite loops_add, Hrun1. }
    rewrite Hc2.
    assert (Hq : length line / SERIAL_BUFFER_SIZE
                 = S (length rest / SERIAL_BUFFER_SIZE)).
    { rewrite Hrlen.
      replace (SERIAL_BUFFER_SIZE + length rest)
        with (1 * SERIAL_BUFFER_SIZE + length rest) by lia.
      rewrite Nat.div_add_l by done. lia. }
    rewrite Hq.
    replace (drop (S (length rest / SERIAL_BUFFER_SIZE) * SERIAL_BUFFER_SIZE) line)
      with (drop (length rest / SERIAL_BUFFER_SIZE * SERIAL_BUFFER_SIZE) rest).
    2:{ unfold rest. rewrite drop_drop. f_equal; lia. }
    apply applyLine_control.
    rewrite Nat.iter_succ_r. apply iter_reportOverflow_control.
    apply (control_taken more) in Hc1. by rewrite Hc1.
Qed.

(** X6.  A line of any length received from an empty buffer: every
    sixty-fourth byte empties the buffer and is reported, so a line of
    [n] bytes gives [n / 64] overflow reports, and at its line feed the
    parser is handed the last [n mod 64] bytes of the line. *)
Theorem long_line_wraps (st : Sketch) (line more : list ascii) :
  wf st -> serialBufferIndex st = 0 ->
  serialRx (hw st) = line ++ LF :: more -> noLF line = true ->
  let q := length line / SERIAL_BUFFER_SIZE in
  let rest := drop (q * SERIAL_BUFFER_SIZE) line in
  exists st',
    loops (S (length line)) st = Some st'
    /\ length rest = length line mod SERIAL_BUFFER_SIZE
    /\ control st'
       = control (applyLine rest (Nat.iter q reportOverflow (taken more st)))
    /\ serialTx (hw st')
       = serialTx (hw st) ++ concat (replicate q overflowText)
         ++ echoText rest ++ concat (map segmentReport (segments rest)).
Proof.
  intros Hwf Hidx Hrx Hline q rest.
  destruct (loops_long_line (length line) st line more) as (st' & Hrun & Hc);
    [unfold SERIAL_BUFFER_SIZE; lia | done..|].
  exists st'. split; [exact Hrun|]. split.
  { unfold rest, q. rewrite length_drop, Nat.Div0.mod_eq. lia. }
  split; [exact Hc|].
  rewrite (control_hw _ _ Hc), serialTx_applyLine, serialTx_iter_reportOverflow.
  by rewrite <- app_assoc.
Qed.

Lemma long_line_wraps_witness :
  let st := receive (overlong ++ [LF]) booted in
  wf st /\ serialBufferIndex st = 0
  /\ serialRx (hw st) = overlong ++ LF :: []
  /\ noLF overlong = true
  /\ exists st',
       loops (S (length overlong)) st = Some st'
       /\ length (lit "N:G") = length overlong mod SERIAL_BUFFER_SIZE
       /\ control st'
          = control (applyLine (lit "N:G") (reportOverflow (taken [] st)))
       /\ serialTx (hw st')
          = serialTx (hw st) ++ concat (replicate 1 overflowText)
            ++ echoText (lit "N:G")
            ++ concat (map segmentReport (segments (lit "N:G"))).
Proof.
  cbv zeta.
  assert (Hwf : wf (receive (overlong ++ [LF]) booted))
    by apply wf_receive, wf_setup.
  split; [exact Hwf|]. split; [reflexivity|]. split; [reflexivity|].
  split; [reflexivity|].
  exact (long_line_wraps _ overlong [] Hwf eq_refl eq_refl eq_refl).
Defined.

(** ** Bytes the grammar does not expect *)

(** X7.  A NUL byte inside a line ends the line for the parser: the
    bytes stored after it are never read, neither by the echo nor by
    the tokeniser, and the line has the effect of its part before the
    NUL. *)
Theorem nul_truncates_line (st : Sketch) (a b more : list ascii) :
  lineReady st (a ++ NUL :: b) more ->
  exists st',
    loops (S (length (a ++ NUL :: b))) st = Some st'
    /\ control st' = control (applyLine a (taken more st))
    /\ serialTx (hw st')
       = serialTx (hw st) ++ lit "Received command: " ++ cstr_of a ++ [CR; LF]
         ++ concat (map segmentReport (segments a)).
Proof.
  intros Hready.
  destruct (loops_line_control st _ more Hready) as (st' & Hrun & Hc & _).
  rewrite (applyLine_cstr_of _ a) in Hc by apply cstr_of_app_NUL.
  exists st'. split; [exact Hrun|]. split; [exact Hc|].
  rewrite (control_hw _ _ Hc), serialTx_applyLine. unfold echoText.
  by rewrite <- !app_assoc.
Qed.

Lemma nul_truncates_line_witness :
  let st := receive ((lit "N:G" ++ NUL :: lit ",E:Y") ++ [LF]) booted in
  lineReady st (lit "N:G" ++ NUL :: lit ",E:Y") []
  /\ exists st',
       loops (S (length (lit "N:G" ++ NUL :: lit ",E:Y"))) st = Some st'
       /\ laneView North st' = ("G", lampsFor "G")
       /\ laneView East st' = ("R", lampsFor "R")
       /\ serialTx (hw st')
          = serialTx (hw st) ++ lit "Received command: N:G" ++ [CR; LF].
Proof.
  cbv zeta.
  assert (Hready : lineReady
            (receive ((lit "N:G" ++ NUL :: lit ",E:Y") ++ [LF]) booted)
            (lit "N:G" ++ NUL :: lit ",E:Y") []).
  { apply lineReady_intro; [apply wf_receive, wf_setup | reflexivity..|].
    vm_compute. lia. }
  split; [exact Hready|].
  destruct (nul_truncates_line _ (lit "N:G") (lit ",E:Y") [] Hready)
    as (st' & Hrun & Hc & Htx).
  exists st'. split; [exact Hrun|].
  rewrite !(control_laneView _ _ _ Hc).
  split; [vm_compute; reflexivity|]. split; [vm_compute; reflexivity|].
  rewrite Htx. vm_compute. reflexivity.
Defined.

Lemma tokenChar_CR : tokenChar CR = true.
Proof. reflexivity. Qed.

Lemma segments_render_CR ds : forall d,
  Forall (fun d => tokenChar d.2 = true) (ds ++ [d]) ->
  segments (render (ds ++ [d]) ++ [CR])
  = map segmentOf ds ++ [segmentOf d ++ [CR]].
Proof.
  induction ds as [|d0 ds IH]; intros d Hvalid.
  - apply Forall_cons in Hvalid as [Hd _]. destruct d as [id c].
    change (segments ((segmentOf (id, c) ++ [CR]) ++ [])
            = [segmentOf (id, c) ++ [CR]]).
    apply (segments_last _ []); [done| |done].
    apply Forall_app. split; [by apply (segmentOf_token (id, c))|].
    by repeat constructor.
  - cbn [app] in Hvalid. apply Forall_cons in Hvalid as [Hd0 Hvalid].
    cbn [app map]. rewrite render_cons by by destruct ds.
    rewrite <- !app_assoc. cbn [app].
    rewrite segments_more, IH; [done | done | done | by apply segmentOf_token].
Qed.

Lemma decode_segment_CR d : decode (segmentOf d ++ [CR]) = None.
Proof. reflexivity. Qed.

(** X8.  A line that ends with a carriage return before the line feed
    loses its last directive: the carriage return is stored like any
    byte and makes the last segment four characters long, so that
    segment is reported as malformed and not applied.  The directives
    before it are applied. *)
Theorem carriage_return_spoils_last_directive
    (st : Sketch) (line more : list ascii)
    (ds : list (Lane * ascii)) (d : Lane * ascii) :
  lineReady st line more ->
  line = render (ds ++ [d]) ++ [CR] ->
  Forall (fun d => tokenChar d.2 = true) (ds ++ [d]) ->
  exists st',
    loops (S (length line)) st = Some st'
    /\ control st'
       = control (reportOnly (segmentOf d ++ [CR])
                    (runDirectives ds (echo line (taken more st))))
    /\ segmentReport (segmentOf d ++ [CR]) = malformedText (segmentOf d ++ [CR])
    /\ diagnostics (segmentReport (segmentOf d ++ [CR])) = 1
    /\ forall id,
         laneView id st'
         = laneView id (runDirectives ds (echo line (taken more st))).
Proof.
  intros Hready -> Hvalid.
  destruct (loops_line_control st _ more Hready) as (st' & Hrun & Hc & _).
  destruct Hready as (Hwf & _ & _ & Hline & _).
  assert (Hc' : control st'
                = control (reportOnly (segmentOf d ++ [CR])
                             (runDirectives ds
                                (echo (render (ds ++ [d]) ++ [CR])
                                   (taken more st))))).
  { rewrite Hc. unfold applyLine.
    rewrite segments_render_CR, runSegments_app, runSegments_cons by done.
    rewrite runSegments_directives.
    by rewrite applySegment_skipped by apply decode_segment_CR. }
  exists st'. split; [exact Hrun|]. split; [exact Hc'|].
  split; [reflexivity|]. split.
  { pose proof (noLF_segments _ Hline) as Hall.
    rewrite segments_render_CR in Hall by done.
    apply Forall_app in Hall as [_ Hall].
    apply Forall_cons in Hall as [Hnolf _].
    rewrite <- (app_nil_r (segmentReport _)).
    by rewrite diagnostics_segmentReport. }
  intros id. rewrite (control_laneView id _ _ Hc').
  apply laneView_set_hw_print.
Qed.

Lemma carriage_return_spoils_last_directive_witness :
  let line := lit "N:G,E:Y" ++ [CR] in
  let st := receive (line ++ [LF]) booted in
  lineReady st line []
  /\ line = render ([(North, "G")] ++ [(East, "Y")]) ++ [CR]
  /\ Forall (fun d => tokenChar d.2 = true) ([(North, "G")] ++ [(East, "Y")])
  /\ exists st',
       loops (S (length line)) st = Some st'
       /\ laneView North st' = ("G", lampsFor "G")
       /\ laneView East st' = ("R", lampsFor "R")
       /\ diagnostics (segmentReport (segmentOf (East, "Y") ++ [CR])) = 1.
Proof.
  cbv zeta.
  assert (Hready : lineReady
            (receive ((lit "N:G,E:Y" ++ [CR]) ++ [LF]) booted)
            (lit "N:G,E:Y" ++ [CR]) []).
  { apply lineReady_intro; [apply wf_receive, wf_setup | reflexivity..|].
    vm_compute. lia. }
  assert (Hvalid : Forall (fun d : Lane * ascii => tokenChar d.2 = true)
                     ([(North, "G")] ++ [(East, "Y")])).
  { by repeat constructor. }
  split; [exact Hready|]. split; [reflexivity|]. split; [exact Hvalid|].
  destruct (carriage_return_spoils_last_directive _ _ []
              [(North, "G")] (East, "Y") Hready eq_refl Hvalid)
    as (st' & Hrun & _ & _ & Hd & Hv).
  exists st'. split; [exact Hrun|].
  rewrite !Hv. split; [vm_compute; reflexivity|].
  split; [vm_compute; reflexivity | exact Hd].
Defined.

(** ** What the buffer held before *)

(** X9.  A line received from the start of the buffer has the same
    effect whatever the buffer holds from earlier lines, tokenised or
    not, and wherever [strtok] stopped last: two states that differ
    only in the contents of the buffer and in the saved pointer of
    [strtok] are left by the same line with the same lanes, index and
    hardware. *)
Theorem stale_buffer_is_harmless (st1 st2 : Sketch) (line more : list ascii) :
  lineReady st1 line more -> lineReady st2 line more ->
  control st1 = control st2 ->
  exists s1 s2,
    loops (S (length line)) st1 = Some s1
    /\ loops (S (length line)) st2 = Some s2
    /\ control s1 = control s2.
Proof.
  intros H1 H2 Hc.
  destruct (loops_line_control st1 line more H1) as (s1 & Hrun1 & Hc1 & _).
  destruct (loops_line_control st2 line more H2) as (s2 & Hrun2 & Hc2 & _).
  exists s1, s2. split; [exact Hrun1|]. split; [exact Hrun2|].
  rewrite Hc1, Hc2. by apply applyLine_control, control_taken.
Qed.

Lemma stale_buffer_is_harmless_witness :
  let st1 := receive (lit "N:G" ++ [LF]) booted in
  let st2 := set_strtok_save 7
               (set_serialBuffer (replicate SERIAL_BUFFER_SIZE ",") st1) in
  lineReady st1 (lit "N:G") [] /\ lineReady st2 (lit "N:G") []
  /\ control st1 = control st2
  /\ exists s1 s2,
       loops (S (length (lit "N:G"))) st1 = Some s1
       /\ loops (S (length (lit "N:G"))) st2 = Some s2
       /\ control s1 = control s2.
Proof.
  cbv zeta.
  assert (H1 : lineReady (receive (lit "N:G" ++ [LF]) booted) (lit "N:G") []).
  { apply lineReady_intro; [apply wf_receive, wf_setup | reflexivity..|].
    vm_compute. lia. }
  assert (H2 : lineReady
            (set_strtok_save 7
               (set_serialBuffer (replicate SERIAL_BUFFER_SIZE ",")
                  (receive (lit "N:G" ++ [LF]) booted)))
            (lit "N:G") []).
  { apply lineReady_intro; [|reflexivity..|vm_compute; lia].
    apply wf_set_strtok_save, wf_set_serialBuffer;
      [reflexivity | apply wf_receive, wf_setup]. }
  assert (Hc : control (receive (lit "N:G" ++ [LF]) booted)
               = control
                   (set_strtok_save 7
                      (set_serialBuffer (replicate SERIAL_BUFFER_SIZE ",")
                         (receive (lit "N:G" ++ [LF]) booted)))).
  { symmetry.
    exact (eq_trans (control_set_strtok_save _ _) (control_set_serialBuffer _ _)). }
  split; [exact H1|]. split; [exact H2|]. split; [exact Hc|].
  exact (stale_buffer_is_harmless _ _ _ _ H1 H2 Hc).
Defined.

(** ** What holds in every reachable state *)

Lemma lampsFor_recorded c : lampsFor (recorded c) = lampsFor c.
Proof.
  unfold lampsFor, recorded.
  destruct (Ascii.eqb_spec c "R") as [->|?]; [reflexivity|].
  destruct (Ascii.eqb_spec c "Y") as [->|?]; [reflexivity|].
  destruct (Ascii.eqb_spec c "G") as [->|?]; [reflexivity|].
  destruct (Ascii.eqb_spec c "R"); [done|].
  destruct (Ascii.eqb_spec c "Y"); [done|].
  destruct (Ascii.eqb_spec c "G"); [done|]. reflexivity.
Qed.

Lemma recorded_cases c : In (recorded c) ["R"; "Y"; "G"; "O"].
Proof.
  unfold recorded.
  destruct (c =? "R")%char; [simpl; auto|].
  destruct (c =? "Y")%char; [simpl; auto|].
  destruct (c =? "G")%char; simpl; auto.
Qed.

(** X10.  In every reachable state the record of a lane and its outputs
    agree: [currentLed] is one of R, Y, G and O, the three pins of the
    lane have been driven, to the levels that show that state, and the
    lane still has the pins it was declared with. *)
Theorem record_matches_lamps (st : Sketch) (id : Lane) :
  reachable st ->
  In (currentLed (laneOf id st)) ["R"; "Y"; "G"; "O"]
  /\ lamps (laneOf id st) (hw st) = lampsFor (currentLed (laneOf id st))
  /\ lanePins (laneOf id st) = pinsOf id.
Proof.
  intros Hreach. destruct (reachable_inv st Hreach) as [Hwf Hview].
  destruct (Hview id) as [c Hc]. apply laneView_eq in Hc as [Hled Hlamps].
  rewrite Hled, Hlamps, lampsFor_recorded.
  split; [apply recorded_cases|]. split; [reflexivity | apply wf_pins, Hwf].
Qed.

Lemma record_matches_lamps_witness :
  exists st',
    loops 4 (receive (lit "S:Z" ++ [LF]) booted) = Some st'
    /\ reachable st'
    /\ In (currentLed (laneOf South st')) ["R"; "Y"; "G"; "O"]
    /\ lamps (laneOf South st') (hw st')
       = lampsFor (currentLed (laneOf South st'))
    /\ lanePins (laneOf South st') = pinsOf South.
Proof.
  destruct (loops_total 4 (receive (lit "S:Z" ++ [LF]) booted)) as [st' Hrun].
  assert (Hreach : reachable st').
  { apply (loops_reachable 4 _ _ (reach_receive _ _ (reach_setup ∅)) Hrun). }
  exists st'. split; [exact Hrun|]. split; [exact Hreach|].
  exact (record_matches_lamps st' South Hreach).
Defined.

(** *** Pins and port settings *)

Lemma pinsOf_allPins id l pin :
  lanePins l = pinsOf id ->
  pin = redPin l \/ pin = yellowPin l \/ pin = greenPin l -> In pin allPins.
Proof.
  destruct l as [r y g cl]. unfold lanePins. cbn [redPin yellowPin greenPin].
  destruct id; intros [= -> -> ->] [-> | [-> | ->]]; simpl; tauto.
Qed.

Lemma laneWrites_allPins id l c :
  lanePins l = pinsOf id -> Forall (fun w => In w.1 allPins) (laneWrites l c).
Proof.
  intros Hl. unfold laneWrites. apply Forall_app. split.
  - repeat (apply List.Forall_cons;
            [apply (pinsOf_allPins id l); [done | cbn [fst]; tauto]|]).
    apply List.Forall_nil.
  - destruct (c =? "R")%char; [|destruct (c =? "Y")%char;
      [|destruct (c =? "G")%char]];
      repeat (apply List.Forall_cons;
              [apply (pinsOf_allPins id l); [done | cbn [fst]; tauto]|]);
      apply List.Forall_nil.
Qed.

(** What a segment leaves alone in the hardware. *)
Lemma applySegment_frame seg st :
  wf st ->
  baud (hw (applySegment seg st)) = baud (hw st)
  /\ pinModes (hw (applySegment seg st)) = pinModes (hw st)
  /\ (exists ws, pinTrace (hw (applySegment seg st)) = pinTrace (hw st) ++ ws
                 /\ Forall (fun w => In w.1 allPins) ws)
  /\ forall pin, ~ In pin allPins ->
       level (hw (applySegment seg st)) pin = level (hw st) pin.
Proof.
  intros Hwf. rewrite pinTrace_applySegment, applySegment_decode.
  destruct (decode seg) as [[id c]|].
  - pose proof (wf_pins _ Hwf id) as Hpins.
    rewrite hw_applyDirective, setLaneState_baud, setLaneState_pinModes.
    split; [reflexivity|]. split; [reflexivity|]. split.
    + eexists. split; [reflexivity|]. by apply (laneWrites_allPins id).
    + intros pin Hpin. apply setLaneState_level_other;
        intros ->; apply Hpin, (pinsOf_allPins id (laneOf id st)); auto.
  - split; [reflexivity|]. split; [reflexivity|]. split; [|reflexivity].
    exists []. split; [reflexivity | constructor].
Qed.

Lemma runSegments_frame segs : forall st,
  wf st ->
  baud (hw (runSegments segs st)) = baud (hw st)
  /\ pinModes (hw (runSegments segs st)) = pinModes (hw st)
  /\ (exists ws, pinTrace (hw (runSegments segs st)) = pinTrace (hw st) ++ ws
                 /\ Forall (fun w => In w.1 allPins) ws)
  /\ forall pin, ~ In pin allPins ->
       level (hw (runSegments segs st)) pin = level (hw st) pin.
Proof.
  induction segs as [|seg segs IH]; intros st Hwf.
  - split; [reflexivity|]. split; [reflexivity|]. split; [|reflexivity].
    exists []. split; [by rewrite app_nil_r | constructor].
  - rewrite runSegments_cons.
    destruct (applySegment_frame seg st Hwf) as (Hb & Hm & (ws & Ht & Hws) & Hl).
    destruct (IH (applySegment seg st) (wf_applySegment seg st Hwf))
      as (Hb' & Hm' & (ws' & Ht' & Hws') & Hl').
    split; [congruence|]. split; [congruence|]. split.
    + exists (ws ++ ws'). split; [by rewrite Ht', Ht, app_assoc|].
      by apply Forall_app.
    + intros pin Hpin. by rewrite Hl', Hl.
Qed.

(** What one call of [loop] leaves alone in the hardware. *)
Lemma loop_frame st st' :
  wf st -> loop st = Some st' ->
  baud (hw st') = baud (hw st)
  /\ pinModes (hw st') = pinModes (hw st)
  /\ (exists ws, pinTrace (hw st') = pinTrace (hw st) ++ ws
                 /\ Forall (fun w => In w.1 allPins) ws)
  /\ forall pin, ~ In pin allPins -> level (hw st') pin = level (hw st) pin.
Proof.
  intros Hwf. unfold loop.
  assert (Hnone : exists ws : list (Z * bool),
             pinTrace (hw st) = pinTrace (hw st) ++ ws
             /\ Forall (fun w => In w.1 allPins) ws).
  { exists []. split; [by rewrite app_nil_r | constructor]. }
  destruct (serialRx (hw st)) as [|c rx]; [by intros [= <-]|].
  destruct (c =? LF)%char.
  - match goal with
    | |- context [processCommand 0 ?s] =>
        set (st1 := s);
        destruct (processCommand_applyLine st1) as (b & k & _ & ->)
    end.
    intros [= <-].
    cbn [hw set_serialBufferIndex set_serialBuffer set_strtok_save].
    assert (Hwf1 : wf (echo (serialBuffer st1) st1)).
    { apply wf_set_hw, wf_set_serialBuffer;
        [rewrite length_insert; exact (wf_buffer _ Hwf) | by apply wf_set_hw]. }
    exact (runSegments_frame _ _ Hwf1).
  - destruct (_ <? _); intros [= <-]; done.
Qed.

Lemma loops_frame n : forall st st',
  wf st -> loops n st = Some st' ->
  baud (hw st') = baud (hw st)
  /\ pinModes (hw st') = pinModes (hw st)
  /\ (exists ws, pinTrace (hw st') = pinTrace (hw st) ++ ws
                 /\ Forall (fun w => In w.1 allPins) ws)
  /\ forall pin, ~ In pin allPins -> level (hw st') pin = level (hw st) pin.
Proof.
  induction n as [|n IH]; intros st st' Hwf Hrun.
  - injection Hrun as <-.
    split; [reflexivity|]. split; [reflexivity|]. split; [|reflexivity].
    exists []. split; [by rewrite app_nil_r | constructor].
  - cbn [loops] in Hrun. destruct (loop st) as [st1|] eqn:Hst1; [|done].
    destruct (loop_frame st st1 Hwf Hst1) as (Hb & Hm & (ws & Ht & Hws) & Hl).
    destruct (loop_step st st1 Hwf Hst1) as [Hwf1 _].
    destruct (IH st1 st' Hwf1 Hrun) as (Hb' & Hm' & (ws' & Ht' & Hws') & Hl').
    split; [congruence|]. split; [congruence|]. split.
    + exists (ws ++ ws'). split; [by rewrite Ht', Ht, app_assoc|].
      by apply Forall_app.
    + intros pin Hpin. by rewrite Hl', Hl.
Qed.

Lemma setup_baud h : baud (hw (setup (power_on h))) = Some BAUD_RATE.
Proof. reflexivity. Qed.

Lemma setup_pinTrace h :
  pinTrace (hw (setup (power_on h)))
  = pinTrace h
    ++ laneWrites (northLane (power_on h)) "R"
    ++ laneWrites (eastLane (power_on h)) "R"
    ++ laneWrites (southLane (power_on h)) "R"
    ++ laneWrites (westLane (power_on h)) "R".
Proof. cbn. rewrite <- !app_assoc. reflexivity. Qed.

Lemma setup_pinModes h :
  Forall (fun pin => pinModes (hw (setup (power_on h))) !! pin = Some OUTPUT)
    allPins.
Proof.
  unfold setup.
  cbn [hw set_hw pinModes pinMode Serial_println Serial_print Serial_begin
       power_on northLane eastLane southLane westLane set_northLane
       set_eastLane set_southLane set_westLane setLaneState Ascii.eqb
       Bool.eqb digitalWrite fst snd set_currentLed redPin yellowPin
       greenPin].
  repeat (apply List.Forall_cons;
          [repeat first [ apply lookup_insert_eq
                        | rewrite lookup_insert_ne by done ]|]).
  apply List.Forall_nil.
Qed.

(** X11.  In every reachable state the port runs at the rate [setup]
    gave it, the twelve lane pins are in the output mode [setup] gave
    them, and every [digitalWrite] made so far was to one of these
    twelve pins. *)
Theorem pins_configured (st : Sketch) :
  reachable st ->
  baud (hw st) = Some BAUD_RATE
  /\ Forall (fun pin => pinModes (hw st) !! pin = Some OUTPUT) allPins
  /\ Forall (fun w => In w.1 allPins) (pinTrace (hw st)).
Proof.
  induction 1 as [levels | st bs _ IH | st st' Hreach IH Hloop].
  - split; [apply setup_baud|]. split; [apply setup_pinModes|].
    rewrite setup_pinTrace. cbn [reset_hw pinTrace app].
    rewrite !Forall_app.
    split; [|split; [|split]];
      [ apply (laneWrites_allPins North) | apply (laneWrites_allPins East)
      | apply (laneWrites_allPins South) | apply (laneWrites_allPins West) ];
      reflexivity.
  - exact IH.
  - destruct IH as (Hb & Hm & Ht).
    destruct (loop_frame st st' (reachable_wf st Hreach) Hloop)
      as (Hb' & Hm' & (ws & Ht' & Hws) & _).
    rewrite Hb', Hm', Ht'. split; [done|]. split; [done|].
    by apply Forall_app.
Qed.

Lemma pins_configured_witness :
  exists st',
    loops 8 (receive (lit "N:G,W:Y" ++ [LF]) booted) = Some st'
    /\ reachable st'
    /\ baud (hw st') = Some BAUD_RATE
    /\ Forall (fun pin => pinModes (hw st') !! pin = Some OUTPUT) allPins
    /\ Forall (fun w => In w.1 allPins) (pinTrace (hw st')).
Proof.
  destruct (loops_total 8 (receive (lit "N:G,W:Y" ++ [LF]) booted))
    as [st' Hrun].
  assert (Hreach : reachable st').
  { apply (loops_reachable 8 _ _ (reach_receive _ _ (reach_setup ∅)) Hrun). }
  exists st'. split; [exact Hrun|]. split; [exact Hreach|].
  exact (pins_configured st' Hreach).
Defined.

(** X12.  [loop] never touches a pin that is not one of the twelve lane
    pins: whatever bytes it reads, such a pin keeps its level, and its
    mode and the rate of the port stay as they were. *)
Theorem other_pins_untouched (n : nat) (st st' : Sketch) (pin : Z) :
  wf st -> loops n st = Some st' -> ~ In pin allPins ->
  level (hw st') pin = level (hw st) pin
  /\ pinModes (hw st') = pinModes (hw st)
  /\ baud (hw st') = baud (hw st).
Proof.
  intros Hwf Hrun Hpin.
  destruct (loops_frame n st st' Hwf Hrun) as (Hb & Hm & _ & Hl).
  split; [by apply Hl|]. by split.
Qed.

Lemma other_pins_untouched_witness :
  let st := receive (lit "N:G,E:Q,x" ++ [LF])
              (setup (power_on (reset_hw {[2%Z := true]}))) in
  wf st
  /\ ~ In 2%Z allPins
  /\ exists st',
       loops 10 st = Some st'
       /\ level (hw st') 2 = Some true
       /\ pinModes (hw st') = pinModes (hw st)
       /\ baud (hw st') = baud (hw st).
Proof.
  cbv zeta.
  assert (Hwf : wf (receive (lit "N:G,E:Q,x" ++ [LF])
                      (setup (power_on (reset_hw {[2%Z := true]})))))
    by apply wf_receive, wf_setup.
  assert (Hpin : ~ In 2%Z allPins).
  { vm_compute. intros H. repeat destruct H as [H|H]; try discriminate H; exact H. }
  split; [exact Hwf|]. split; [exact Hpin|].
  destruct (loops_total 10 (receive (lit "N:G,E:Q,x" ++ [LF])
                              (setup (power_on (reset_hw {[2%Z := true]})))))
    as [st' Hrun].
  destruct (other_pins_untouched 10 _ st' 2%Z Hwf Hrun Hpin) as (Hl & Hm & Hb).
  exists st'. split; [exact Hrun|]. split; [|by split].
  rewrite Hl. vm_compute. reflexivity.
Defined.

(** ** The order of directives *)

Lemma lastFor_snoc id segs seg :
  lastFor id (segs ++ [seg])
  = match decode seg with
    | Some (id', c) => if decide (id' = id) then Some c else lastFor id segs
    | None => lastFor id segs
    end.
Proof. unfold lastFor. by rewrite foldl_app. Qed.

Lemma decode_segmentOf d : decode (segmentOf d) = Some d.
Proof. destruct d as [id c]. apply decode_directive. Qed.

(** When no lane is named twice, the last directive for a lane is the
    only one. *)
Lemma lastFor_NoDup id ds :
  NoDup ds.*1 ->
  (forall c, (id, c) ∈ ds -> lastFor id (map segmentOf ds) = Some c)
  /\ (id ∉ ds.*1 -> lastFor id (map segmentOf ds) = None).
Proof.
  induction ds as [|[id' c'] ds IH] using rev_ind; intros Hnd.
  - split; [by intros c ?%elem_of_nil | done].
  - rewrite fmap_app in Hnd. apply NoDup_app in Hnd as (Hnd & Hdisj & _).
    destruct (IH Hnd) as [IH1 IH2].
    rewrite map_app. cbn [map]. rewrite lastFor_snoc, decode_segmentOf.
    split.
    + intros c Hin. apply elem_of_app in Hin as [Hin|Hin].
      * destruct (decide (id' = id)) as [->|Hne]; [|by apply IH1].
        exfalso. apply (Hdisj id).
        -- apply list_elem_of_fmap. by exists (id, c).
        -- simpl. apply list_elem_of_singleton. reflexivity.
      * apply list_elem_of_singleton in Hin. injection Hin as -> ->.
        by rewrite decide_True.
    + intros Hnot. rewrite fmap_app in Hnot.
      apply not_elem_of_app in Hnot as [Hnot1 Hnot2].
      rewrite decide_False; [by apply IH2|].
      intros ->. apply Hnot2. simpl. by apply list_elem_of_singleton.
Qed.

Lemma lastFor_Permutation id ds1 ds2 :
  ds1 ≡ₚ ds2 -> NoDup ds1.*1 ->
  lastFor id (map segmentOf ds1) = lastFor id (map segmentOf ds2).
Proof.
  intros Hperm Hnd1.
  assert (Hnd2 : NoDup ds2.*1) by by rewrite <- Hperm.
  destruct (lastFor_NoDup id ds1 Hnd1) as [H1 H1'].
  destruct (lastFor_NoDup id ds2 Hnd2) as [H2 H2'].
  destruct (decide (id ∈ ds1.*1)) as [Hin|Hnot].
  - apply list_elem_of_fmap in Hin as ([id' c] & -> & Hin). simpl in *.
    rewrite (H1 c Hin). symmetry. apply H2. by rewrite <- Hperm.
  - rewrite (H1' Hnot). symmetry. apply H2'. by rewrite <- Hperm.
Qed.

Lemma length_render ds : length (render ds) = 4 * length ds - 1.
Proof.
  induction ds as [|[id c] ds IH]; [reflexivity|].
  destruct ds as [|d ds]; [reflexivity|].
  rewrite render_cons by done.
  rewrite length_app, length_cons, IH. cbn [length segmentOf]. lia.
Qed.

Lemma RYG_tokenChar c : isRYG c = true -> tokenChar c = true.
Proof.
  unfold isRYG.
  destruct (Ascii.eqb_spec c "R") as [->|?]; [reflexivity|].
  destruct (Ascii.eqb_spec c "Y") as [->|?]; [reflexivity|].
  destruct (Ascii.eqb_spec c "G") as [->|?]; [reflexivity | done].
Qed.

Lemma RYG_noLF c : isRYG c = true -> (c =? LF)%char = false.
Proof.
  unfold isRYG.
  destruct (Ascii.eqb_spec c "R") as [->|?]; [reflexivity|].
  destruct (Ascii.eqb_spec c "Y") as [->|?]; [reflexivity|].
  destruct (Ascii.eqb_spec c "G") as [->|?]; [reflexivity | done].
Qed.

Lemma noLF_render ds :
  Forall (fun d => isRYG d.2 = true) ds -> noLF (render ds) = true.
Proof.
  induction 1 as [|[id c] ds Hd Hds IH]; [reflexivity|].
  assert (Hseg : noLF [laneCodeOf id; ":"; c] = true).
  { simpl in Hd. cbn. rewrite (RYG_noLF c Hd). by destruct id. }
  destruct ds as [|d ds]; [exact Hseg|].
  rewrite render_cons by done. rewrite noLF_app.
  apply andb_true_intro. split; [exact Hseg | exact IH].
Qed.

(** X13.  A valid line that names no lane twice can be written in any
    order: two lines with the same directives in different orders,
    received in the same state, leave every lane with the same record
    and the same lamps. *)
Theorem directive_order_is_irrelevant
    (st : Sketch) (ds1 ds2 : list (Lane * ascii)) :
  wf st -> serialBufferIndex st = 0 -> serialRx (hw st) = [] ->
  ds1 ≡ₚ ds2 -> NoDup ds1.*1 ->
  Forall (fun d => isRYG d.2 = true) ds1 ->
  exists s1 s2,
    loops (S (length (render ds1))) (receive (render ds1 ++ [LF]) st) = Some s1
    /\ loops (S (length (render ds2))) (receive (render ds2 ++ [LF]) st)
       = Some s2
    /\ forall id, laneView id s1 = laneView id s2.
Proof.
  intros Hwf Hidx Hrx Hperm Hnd Hryg1.
  assert (Hryg2 : Forall (fun d => isRYG d.2 = true) ds2) by by rewrite <- Hperm.
  assert (Hfour : length ds1 <= 4).
  { assert (Hsub : ds1.*1 ⊆+ [North; East; South; West]).
    { apply NoDup_submseteq; [done|]. intros [] _; set_solver. }
    apply submseteq_length in Hsub. by rewrite length_fmap in Hsub. }
  assert (Hready : forall ds,
             length ds = length ds1 -> Forall (fun d => isRYG d.2 = true) ds ->
             lineReady (receive (render ds ++ [LF]) st) (render ds) []).
  { intros ds Hlen Hds. apply lineReady_intro.
    - by apply wf_receive.
    - exact Hidx.
    - unfold receive. cbn [hw set_hw serialRx set_serialRx]. by rewrite Hrx.
    - by apply noLF_render.
    - rewrite length_render, Hlen. unfold SERIAL_BUFFER_SIZE. lia. }
  assert (Htok : forall ds : list (Lane * ascii),
             Forall (fun d => isRYG d.2 = true) ds ->
             Forall (fun d => tokenChar d.2 = true) ds).
  { intros ds Hds. eapply Forall_impl; [exact Hds|].
    intros d. apply RYG_tokenChar. }
  destruct (loops_line_control _ _ _ (Hready ds1 eq_refl Hryg1))
    as (s1 & Hrun1 & Hc1 & _).
  destruct (loops_line_control _ _ _
              (Hready ds2 (eq_sym (Permutation_length Hperm)) Hryg2))
    as (s2 & Hrun2 & Hc2 & _).
  exists s1, s2. split; [exact Hrun1|]. split; [exact Hrun2|].
  intros id.
  rewrite (control_laneView id _ _ Hc1), (control_laneView id _ _ Hc2).
  rewrite !laneView_applyLine by by apply wf_taken, wf_receive.
  rewrite !segments_render by by apply Htok.
  rewrite (lastFor_Permutation id ds1 ds2 Hperm Hnd).
  destruct (lastFor id (map segmentOf ds2)); [reflexivity|].
  by rewrite !laneView_taken.
Qed.

Lemma directive_order_is_irrelevant_witness :
  let ds1 := [(North, "G"); (East, "R"); (West, "Y")] in
  let ds2 := [(West, "Y"); (North, "G"); (East, "R")] in
  wf booted /\ serialBufferIndex booted = 0 /\ serialRx (hw booted) = []
  /\ ds1 ≡ₚ ds2 /\ NoDup ds1.*1
  /\ Forall (fun d => isRYG d.2 = true) ds1
  /\ exists s1 s2,
       loops (S (length (render ds1))) (receive (render ds1 ++ [LF]) booted)
       = Some s1
       /\ loops (S (length (render ds2))) (receive (render ds2 ++ [LF]) booted)
          = Some s2
       /\ forall id, laneView id s1 = laneView id s2.
Proof.
  cbv zeta.
  assert (Hperm : [(North, "G"); (East, "R"); (West, "Y")]
                  ≡ₚ [(West, "Y"); (North, "G"); (East, "R")]).
  { symmetry. apply Permutation_cons_append with (x := (West, "Y"))
      (l := [(North, "G"); (East, "R")]). }
  assert (Hnd : NoDup [(North, "G"); (East, "R"); (West, "Y")].*1).
  { cbn. repeat (apply NoDup_cons_2; [by apply (bool_decide_unpack _)|]).
    apply NoDup_nil_2. }
  assert (Hryg : Forall (fun d : Lane * ascii => isRYG d.2 = true)
                   [(North, "G"); (East, "R"); (West, "Y")]).
  { by repeat constructor. }
  split; [apply wf_setup|]. split; [reflexivity|]. split; [reflexivity|].
  split; [exact Hperm|]. split; [exact Hnd|]. split; [exact Hryg|].
  exact (directive_order_is_irrelevant booted _ _ (wf_setup _)
           eq_refl eq_refl Hperm Hnd Hryg).
Defined.

(** ** Lines one after the other *)

Lemma runLines_control ls : forall a b,
  control a = control b -> control (runLines ls a) = control (runLines ls b).
Proof.
  induction ls as [|l ls IH]; intros a b H; [done|].
  apply IH. by apply applyLine_control.
Qed.

Lemma wire_cons l ls : wire (l :: ls) = l ++ LF :: wire ls.
Proof. unfold wire. cbn [map concat]. by rewrite <- app_assoc. Qed.

Lemma loops_lines ls : forall st more,
  wf st -> serialBufferIndex st = 0 ->
  serialRx (hw st) = wire ls ++ more ->
  Forall (fun l => noLF l = true /\ length l < SERIAL_BUFFER_SIZE) ls ->
  exists st',
    loops (length (wire ls)) st = Some st'
    /\ control st' = control (runLines ls (taken more st))
    /\ wf st'.
Proof.
  induction ls as [|l ls IH]; intros st more Hwf Hidx Hrx Hls.
  - exists st. split; [reflexivity|]. split; [|done].
    simpl in Hrx. cbn [runLines foldl]. by rewrite <- Hrx, taken_eta.
  - apply Forall_cons in Hls as [[Hl Hlen] Hls].
    rewrite wire_cons, <- app_assoc in Hrx. cbn [app] in Hrx.
    destruct (loops_line_control st l (wire ls ++ more))
      as (s1 & Hrun1 & Hc1 & Hwf1); [by apply lineReady_intro|].
    destruct (IH s1 more) as (st' & Hrun2 & Hc2 & Hwf'); [done | | | done |].
    { rewrite (control_serialBufferIndex _ _ Hc1).
      by rewrite applyLine_serialBufferIndex. }
    { by rewrite (control_hw _ _ Hc1), serialRx_applyLine. }
    exists st'. split; [|split; [|done]].
    + rewrite wire_cons, length_app. cbn [length].
      replace (length l + S (length (wire ls)))
        with (S (length l) + length (wire ls)) by lia.
      by rewrite loops_add, Hrun1.
    + rewrite Hc2. cbn [runLines foldl]. apply runLines_control.
      apply (control_taken more) in Hc1.
      by rewrite Hc1, !applyLine_taken, taken_taken.
Qed.

(** X14.  Lines are dealt with one at a time, in the order they come:
    when several lines that fit in the buffer are pending, each with its
    line feed, the sketch ends as if each had been applied to the state
    the one before left. *)
Theorem lines_in_sequence (st : Sketch) (ls : list (list ascii))
    (more : list ascii) :
  wf st -> serialBufferIndex st = 0 ->
  serialRx (hw st) = wire ls ++ more ->
  Forall (fun l => noLF l = true /\ length l < SERIAL_BUFFER_SIZE) ls ->
  exists st',
    loops (length (wire ls)) st = Some st'
    /\ control st' = control (foldl (fun s l => applyLine l s) (taken more st) ls).
Proof.
  intros Hwf Hidx Hrx Hls.
  destruct (loops_lines ls st more Hwf Hidx Hrx Hls) as (st' & Hrun & Hc & _).
  by exists st'.
Qed.

Lemma lines_in_sequence_witness :
  let ls := [lit "N:G,E:R"; lit "N:Y"; lit "N:R,E:G"] in
  let st := receive (wire ls) booted in
  wf st /\ serialBufferIndex st = 0
  /\ serialRx (hw st) = wire ls ++ []
  /\ Forall (fun l => noLF l = true /\ length l < SERIAL_BUFFER_SIZE) ls
  /\ exists st',
       loops (length (wire ls)) st = Some st'
       /\ laneView North st' = ("R", lampsFor "R")
       /\ laneView East st' = ("G", lampsFor "G").
Proof.
  cbv zeta.
  assert (Hwf : wf (receive (wire [lit "N:G,E:R"; lit "N:Y"; lit "N:R,E:G"])
                      booted)) by apply wf_receive, wf_setup.
  assert (Hls : Forall (fun l => noLF l = true /\ length l < SERIAL_BUFFER_SIZE)
                  [lit "N:G,E:R"; lit "N:Y"; lit "N:R,E:G"]).
  { repeat (apply List.Forall_cons; [split; [reflexivity | vm_compute; lia]|]).
    apply List.Forall_nil. }
  split; [exact Hwf|]. split; [reflexivity|]. split; [reflexivity|].
  split; [exact Hls|].
  destruct (lines_in_sequence _ [lit "N:G,E:R"; lit "N:Y"; lit "N:R,E:G"] []
              Hwf eq_refl eq_refl Hls) as (st' & Hrun & Hc).
  exists st'. split; [exact Hrun|].
  rewrite !(control_laneView _ _ _ Hc). split; vm_compute; reflexivity.
Defined.

(** X15.  Sending a line again does nothing to the lanes: after the
    same line has been received twice in a row, every lane has the
    record and the lamps it had after the first time. *)
Theorem resending_a_line (st : Sketch) (line more : list ascii) :
  lineReady st line (line ++ LF :: more) ->
  exists s1 s2,
    loops (S (length line)) st = Some s1
    /\ loops (S (length line)) s1 = Some s2
    /\ forall id, laneView id s2 = laneView id s1.
Proof.
  intros Hready.
  destruct (loops_line_control st line _ Hready) as (s1 & Hrun1 & Hc1 & Hwf1).
  destruct Hready as (Hwf & Hidx & Hrx & Hline & Hlen).
  assert (Hready1 : lineReady s1 line more).
  { apply lineReady_intro; try done.
    - rewrite (control_serialBufferIndex _ _ Hc1).
      by rewrite applyLine_serialBufferIndex.
    - by rewrite (control_hw _ _ Hc1), serialRx_applyLine. }
  destruct (loops_line_control s1 line more Hready1) as (s2 & Hrun2 & Hc2 & _).
  exists s1, s2. split; [exact Hrun1|]. split; [exact Hrun2|].
  intros id.
  rewrite (control_laneView id _ _ Hc2), (control_laneView id _ _ Hc1).
  rewrite !laneView_applyLine by by apply wf_taken.
  destruct (lastFor id (segments line)) eqn:E; [reflexivity|].
  rewrite !laneView_taken, (control_laneView id _ _ Hc1).
  rewrite laneView_applyLine by by apply wf_taken.
  by rewrite E, laneView_taken.
Qed.

Lemma resending_a_line_witness :
  let line := lit "N:G,E:Z" in
  let st := receive (line ++ LF :: line ++ [LF]) booted in
  lineReady st line (line ++ LF :: [])
  /\ exists s1 s2,
       loops (S (length line)) st = Some s1
       /\ loops (S (length line)) s1 = Some s2
       /\ forall id, laneView id s2 = laneView id s1.
Proof.
  cbv zeta.
  assert (Hready : lineReady
            (receive (lit "N:G,E:Z" ++ LF :: lit "N:G,E:Z" ++ [LF]) booted)
            (lit "N:G,E:Z") (lit "N:G,E:Z" ++ LF :: [])).
  { apply lineReady_intro; [apply wf_receive, wf_setup | reflexivity..|].
    vm_compute. lia. }
  split; [exact Hready|].
  exact (resending_a_line _ _ _ Hready).
Defined.

(** ** What [strtok] does to the buffer *)

Lemma tokenised_refl l : tokenised l l.
Proof. split; [reflexivity | by left]. Qed.

Lemma tokenised_trans a b c : tokenised a b -> tokenised b c -> tokenised a c.
Proof.
  intros [Hl1 H1] [Hl2 H2]. split; [congruence|].
  intros i. destruct (H2 i) as [E2 | [E2 E2']].
  - rewrite E2. apply H1.
  - destruct (H1 i) as [E1 | [E1 E1']].
    + right. by rewrite <- E1.
    + rewrite E1' in E2. by injection E2.
Qed.

Lemma tokenised_insert mem e :
  mem !! e = Some ","%char -> tokenised mem (<[e:=NUL]> mem).
Proof.
  intros He. split; [apply length_insert|].
  intros i. destruct (decide (i = e)) as [->|Hne].
  - right. split; [exact He|]. apply list_lookup_insert_eq.
    by apply lookup_lt_Some in He.
  - left. by apply list_lookup_insert_ne.
Qed.

(** A call of [strtok] changes at most one byte of the buffer, a comma,
    into NUL. *)
Lemma strtok_tokenised s st :
  tokenised (serialBuffer st) (serialBuffer (strtok s "," st).2).
Proof.
  unfold strtok.
  set (p := match s with Some q => q | None => strtok_save st end).
  set (mem := serialBuffer st).
  set (tok := p + strspn mem p ",").
  destruct (peek mem tok =? NUL)%char; [apply tokenised_refl|].
  set (e := tok + strcspn mem tok ",").
  destruct (Ascii.eqb_spec (peek mem e) NUL) as [|Hne]; [apply tokenised_refl|].
  cbn [snd serialBuffer set_strtok_save set_serialBuffer].
  apply tokenised_insert.
  pose proof (span_drop tokenChar (drop tok mem)) as Hend.
  change (span tokenChar (drop tok mem)) with (strcspn mem tok ",") in Hend.
  rewrite drop_drop in Hend. fold e in Hend.
  unfold peek in Hne.
  destruct (mem !! e) as [x|] eqn:Hx; [|done]. simpl in Hne.
  rewrite <- (Nat.add_0_r e), <- lookup_drop in Hx.
  destruct (drop e mem) as [|y r]; [done|]. injection Hx as ->.
  f_equal. unfold tokenChar in Hend.
  destruct (Ascii.eqb_spec x ","); [done|].
  destruct (Ascii.eqb_spec x NUL); done.
Qed.

Lemma processPart_serialBuffer part st :
  serialBuffer (processPart part st) = serialBuffer st.
Proof. by rewrite processPart_applySegment, applySegment_serialBuffer. Qed.

Lemma whileParts_tokenised fuel : forall part st st',
  whileParts fuel part st = Some st' ->
  tokenised (serialBuffer st) (serialBuffer st').
Proof.
  induction fuel as [|fuel IH]; intros [p|] st st' Hrun;
    try (injection Hrun as <-; apply tokenised_refl); [done|].
  cbn [whileParts] in Hrun.
  pose proof (strtok_tokenised None (processPart p st)) as Htok.
  destruct (strtok None "," (processPart p st)) as [part' st1].
  rewrite processPart_serialBuffer in Htok.
  exact (tokenised_trans _ _ _ Htok (IH _ _ _ Hrun)).
Qed.

(** X16.  Parsing is destructive: [processCommand] leaves the buffer
    with some of its commas overwritten by NUL, and with no other
    change; its size in particular is kept. *)
Theorem processCommand_overwrites_commas (command : nat) (st st' : Sketch) :
  processCommand command st = Some st' ->
  length (serialBuffer st') = length (serialBuffer st)
  /\ forall i,
       serialBuffer st' !! i = serialBuffer st !! i
       \/ (serialBuffer st !! i = Some ","%char
           /\ serialBuffer st' !! i = Some NUL).
Proof.
  unfold processCommand.
  match goal with
  | |- context [strtok (Some command) "," ?s] =>
      pose proof (strtok_tokenised (Some command) s) as Htok;
      destruct (strtok (Some command) "," s) as [part st1]
  end.
  intros Hrun. apply whileParts_tokenised in Hrun.
  exact (tokenised_trans _ _ _ Htok Hrun).
Qed.

Lemma processCommand_overwrites_commas_witness :
  let st := set_serialBuffer (lit "N:G,E:R" ++ replicate 57 NUL) booted in
  exists st',
    processCommand 0 st = Some st'
    /\ serialBuffer st' = lit "N:G" ++ NUL :: lit "E:R" ++ replicate 57 NUL
    /\ length (serialBuffer st') = length (serialBuffer st)
    /\ forall i,
         serialBuffer st' !! i = serialBuffer st !! i
         \/ (serialBuffer st !! i = Some ","%char
             /\ serialBuffer st' !! i = Some NUL).
Proof.
  cbv zeta.
  destruct (processCommand_applyLine
              (set_serialBuffer (lit "N:G,E:R" ++ replicate 57 NUL) booted))
    as (b & k & _ & Hrun).
  eexists. split; [exact Hrun|]. split.
  - assert (Hb : serialBuffer
                   <$> processCommand 0
                         (set_serialBuffer (lit "N:G,E:R" ++ replicate 57 NUL)
                            booted)
                 = Some (lit "N:G" ++ NUL :: lit "E:R" ++ replicate 57 NUL))
      by (vm_compute; reflexivity).
    rewrite Hrun in Hb. by injection Hb.
  - exact (processCommand_overwrites_commas 0 _ _ Hrun).
Defined.
